(** * scell: a shallow embedding of [SCell<T>] in its two build variants

    [src/src/checked.rs]  : [SCell<T>(Rc<RefCell<T>>)], handles [Ref]/[RefMut]
                            wrapping [cell::Ref]/[cell::RefMut].
    [src/src/unchecked.rs]: [SCell<T>(Rc<UnsafeCell<T>>)], handles [Ref]/[RefMut]
                            wrapping plain [&T]/[&mut T].

    The Rc allocations form a heap of slots addressed by [ptr]; a handle
    [SCell] is the address of its slot ([self.0.as_ptr()] compares these
    addresses).  Every operation is a state transformer over the heap that
    returns a [result]: a panic of [RefCell::borrow]/[RefCell::borrow_mut]
    is an [Err], and on an [Err] the returned heap is the one left after
    unwinding (the guards of the views that were live have been dropped). *)

From Stdlib Require Import ZArith PArith.
From stdpp Require Import base gmap list strings pretty.

Definition ptr := nat.

(** The Rust traits of the contained type [T] that the forwarding impls use. *)
Class PartialEq (T : Type) := {
  eq : T -> T -> bool;
  ne : T -> T -> bool
}.

Class PartialOrd (T : Type) := {
  partial_cmp : T -> T -> option comparison;
  lt : T -> T -> bool;
  le : T -> T -> bool;
  gt : T -> T -> bool;
  ge : T -> T -> bool
}.

Class Ord (T : Type) := { cmp : T -> T -> comparison }.

(** The panics of the borrow accessors; [Dangling] is a lookup in a slot
    that does not exist, which a live [Rc] never produces. *)
Inductive BorrowError :=
| AlreadyMutablyBorrowed   (* RefCell::borrow: "already mutably borrowed" *)
| AlreadyBorrowed          (* RefCell::borrow_mut: "already borrowed" *)
| Dangling.

Inductive result (A : Type) :=
| Ok (a : A)
| Err (e : BorrowError).
Arguments Ok {A} a.
Arguments Err {A} e.

(** State-and-panic monad over a heap [S]. *)
Definition M (S A : Type) := S -> result A * S.

Definition ret {S A} (a : A) : M S A := fun h => (Ok a, h).

Definition bind {S A B} (m : M S A) (k : A -> M S B) : M S B :=
  fun h => match m h with
           | (Ok a, h') => k a h'
           | (Err e, h') => (Err e, h')
           end.

Notation "x <- m ;; k" := (bind m (fun x => k))
  (at level 100, m at next level, right associativity).

(** A handle: [SCell<T>(Rc<..>)], the address of the shared slot. *)
Record SCell := SCellC { rc : ptr }.

(** [self.0.as_ptr() == other.0.as_ptr()] *)
Definition same_ptr (s o : SCell) : bool := Nat.eqb (rc s) (rc o).

(** ** The borrow flag of [std::cell::RefCell] (checked variant)

    [RefCell] keeps a counter: zero when unused, the number of live
    [cell::Ref]s when reading, and a writing mark while a [cell::RefMut]
    lives.  The counter is an [isize]: at most [isize::MAX] read guards can
    be outstanding (a state safe code reaches by leaking guards with
    [mem::forget]); one more wraps the counter to a non-reading value and
    the borrow is refused. *)
Inductive BorrowState :=
| Unborrowed
| SharedRead (n : positive)
| Exclusive.

(** [isize::MAX] on a 64-bit target (on a 32-bit one it is [2^31 - 1]; no
    theorem below depends on the value beyond [1 < isize_max]). *)
Definition isize_max : positive := 9223372036854775807.
#[global] Opaque isize_max.

(** [BorrowRef::new]: [let b = borrow.get().wrapping_add(1); if !is_reading(b)
    { None } else { borrow.set(b); Some(..) }], where [is_reading(x)] is
    [x > UNUSED]: from [isize::MAX] readers the increment wraps to
    [isize::MIN].  [None] makes [RefCell::borrow] panic ("already mutably
    borrowed", the message of [BorrowError]). *)
Definition acquire_read (f : BorrowState) : option BorrowState :=
  match f with
  | Unborrowed => Some (SharedRead 1)
  | SharedRead n => if (n <? isize_max)%positive then Some (SharedRead (Pos.succ n)) else None
  | Exclusive => None
  end.

(** [BorrowRefMut::new]: [None] makes [RefCell::borrow_mut] panic. *)
Definition acquire_write (f : BorrowState) : option BorrowState :=
  match f with
  | Unborrowed => Some Exclusive
  | SharedRead _ | Exclusive => None
  end.

(** [Drop for BorrowRef]: the counter is decremented. *)
Definition release_read (f : BorrowState) : BorrowState :=
  match f with
  | SharedRead xH => Unborrowed
  | SharedRead n => SharedRead (Pos.pred n)
  | other => other
  end.

(** [Drop for BorrowRefMut]: the writing mark is cleared. *)
Definition release_write (f : BorrowState) : BorrowState :=
  match f with
  | Exclusive => Unborrowed
  | other => other
  end.

Section Checked.
Context {T : Type}.

(** An [RcBox<RefCell<T>>]: the value, the borrow flag, the strong count. *)
Record cslot := CSlot { c_value : T; c_flag : BorrowState; c_strong : nat }.

Record cheap := CHeap { c_slots : gmap ptr cslot; c_next : ptr }.

(** checked [Ref<'a, T>(cell::Ref<'a, T>)], [RefMut<'a, T>(cell::RefMut<'a, T>)] *)
Record Ref := RefC { ref_ptr : ptr }.
Record RefMut := RefMutC { refmut_ptr : ptr }.

Definition c_update (p : ptr) (sl : cslot) (h : cheap) : cheap :=
  CHeap (<[p := sl]> (c_slots h)) (c_next h).

Definition with_flag (sl : cslot) (f : BorrowState) : cslot :=
  CSlot (c_value sl) f (c_strong sl).

(** [SCell::new]: [SCell(Rc::new(cell::RefCell::new(t)))] *)
Definition c_new (t : T) : M cheap SCell := fun h =>
  let p := c_next h in
  (Ok (SCellC p), CHeap (<[p := CSlot t Unborrowed 1]> (c_slots h)) (S p)).

(** [From<T> for SCell<T>]: [SCell::new(t)] *)
Definition c_from (t : T) : M cheap SCell := c_new t.

(** [Clone for SCell<T>]: [SCell(self.0.clone())], [Rc::clone] bumps the
    strong count and checks nothing else. *)
Definition c_clone (s : SCell) : M cheap SCell := fun h =>
  match c_slots h !! rc s with
  | Some sl =>
      (Ok (SCellC (rc s)),
       c_update (rc s) (CSlot (c_value sl) (c_flag sl) (S (c_strong sl))) h)
  | None => (Err Dangling, h)
  end.

(** [SCell::borrow]: [Ref(self.0.borrow())] *)
Definition c_borrow (s : SCell) : M cheap Ref := fun h =>
  match c_slots h !! rc s with
  | Some sl =>
      match acquire_read (c_flag sl) with
      | Some f => (Ok (RefC (rc s)), c_update (rc s) (with_flag sl f) h)
      | None => (Err AlreadyMutablyBorrowed, h)
      end
  | None => (Err Dangling, h)
  end.

(** [SCell::borrow_mut]: [RefMut(self.0.borrow_mut())] *)
Definition c_borrow_mut (s : SCell) : M cheap RefMut := fun h =>
  match c_slots h !! rc s with
  | Some sl =>
      match acquire_write (c_flag sl) with
      | Some f => (Ok (RefMutC (rc s)), c_update (rc s) (with_flag sl f) h)
      | None => (Err AlreadyBorrowed, h)
      end
  | None => (Err Dangling, h)
  end.

(** [Deref for Ref] / [Deref for RefMut]: the slot's current value. *)
Definition c_deref (p : ptr) (h : cheap) : option T := c_value <$> c_slots h !! p.

(** [*refmut = v] through [DerefMut for RefMut]. *)
Definition c_assign (r : RefMut) (v : T) (h : cheap) : cheap :=
  match c_slots h !! refmut_ptr r with
  | Some sl => c_update (refmut_ptr r) (CSlot v (c_flag sl) (c_strong sl)) h
  | None => h
  end.

(** Dropping a [Ref] / a [RefMut]: the guard's [Drop] releases the flag. *)
Definition c_drop_ref (r : Ref) (h : cheap) : cheap :=
  match c_slots h !! ref_ptr r with
  | Some sl => c_update (ref_ptr r) (with_flag sl (release_read (c_flag sl))) h
  | None => h
  end.

Definition c_drop_refmut (r : RefMut) (h : cheap) : cheap :=
  match c_slots h !! refmut_ptr r with
  | Some sl => c_update (refmut_ptr r) (with_flag sl (release_write (c_flag sl))) h
  | None => h
  end.

(** A read view held for a scope: [let r = s.borrow(); body(&*r)]; the
    guard is dropped when the scope is left, whatever [body] returned
    ([Ok] for a normal or early return, [Err] for a panic unwinding). *)
Definition with_ref {A} (s : SCell) (body : T -> M cheap A) : M cheap A :=
  r <- c_borrow s ;;
  fun h =>
    let '(res, h') :=
      match c_deref (ref_ptr r) h with
      | Some v => body v h
      | None => (Err Dangling, h)
      end in
    (res, c_drop_ref r h').

(** A write view held for a scope: [let mut w = s.borrow_mut(); *w = f(&*w); body(..)]. *)
Definition with_ref_mut {A} (s : SCell) (f : T -> T) (body : M cheap A) : M cheap A :=
  r <- c_borrow_mut s ;;
  fun h =>
    let '(res, h') :=
      match c_deref (refmut_ptr r) h with
      | Some v => body (c_assign r (f v) h)
      | None => (Err Dangling, h)
      end in
    (res, c_drop_refmut r h').

(** The checked forwarding impls: [if self.0.as_ptr() == other.0.as_ptr()
    { same } else { op(&*self.borrow(), &*other.borrow()) }].  The two
    temporaries are dropped at the end of the statement (or while
    unwinding if the second borrow panics). *)
Definition c_forward2 {A} (same : A) (op : T -> T -> A) (s o : SCell) : M cheap A :=
  if same_ptr s o then ret same
  else with_ref s (fun a => with_ref o (fun b => ret (op a b))).

Context `{PartialEq T} `{PartialOrd T} `{Ord T}.

Definition c_eq := c_forward2 true eq.
Definition c_ne := c_forward2 false ne.
Definition c_partial_cmp := c_forward2 (Some Eq) partial_cmp.
Definition c_lt := c_forward2 false lt.
Definition c_le := c_forward2 true le.
Definition c_gt := c_forward2 false gt.
Definition c_ge := c_forward2 true ge.
Definition c_cmp := c_forward2 Eq cmp.
End Checked.
Arguments cslot : clear implicits.
Arguments cheap : clear implicits.

Section Unchecked.
Context {T : Type}.

(** An [RcBox<UnsafeCell<T>>]: the value and the strong count, no flag. *)
Record uslot := USlot { u_value : T; u_strong : nat }.

Record uheap := UHeap { u_slots : gmap ptr uslot; u_next : ptr }.

(** unchecked [Ref<'a, T>(&'a T)] and [RefMut<'a, T>(&'a mut T)]: the
    address the reference points at, i.e. the slot's own memory. *)
Record URef := URefC { uref_ptr : ptr }.
Record URefMut := URefMutC { urefmut_ptr : ptr }.

Definition u_update (p : ptr) (sl : uslot) (h : uheap) : uheap :=
  UHeap (<[p := sl]> (u_slots h)) (u_next h).

(** [SCell::new]: [SCell(Rc::new(UnsafeCell::new(t)))] *)
Definition u_new (t : T) : M uheap SCell := fun h =>
  let p := u_next h in
  (Ok (SCellC p), UHeap (<[p := USlot t 1]> (u_slots h)) (S p)).

(** [From<T> for SCell<T>]: [SCell::new(t)] *)
Definition u_from (t : T) : M uheap SCell := u_new t.

(** [Clone for SCell<T>]: [SCell(self.0.clone())] *)
Definition u_clone (s : SCell) : M uheap SCell := fun h =>
  match u_slots h !! rc s with
  | Some sl => (Ok (SCellC (rc s)), u_update (rc s) (USlot (u_value sl) (S (u_strong sl))) h)
  | None => (Err Dangling, h)
  end.

(** [SCell::borrow]: [Ref(unsafe{&*self.0.get() as &T})] *)
Definition u_borrow (s : SCell) : M uheap URef := fun h => (Ok (URefC (rc s)), h).

(** [SCell::borrow_mut]: [RefMut(unsafe{&mut *self.0.get() as &mut T})] *)
Definition u_borrow_mut (s : SCell) : M uheap URefMut := fun h => (Ok (URefMutC (rc s)), h).

(** [Deref for Ref] / [Deref for RefMut]: [&*self.0], a read of the slot. *)
Definition u_deref (p : ptr) (h : uheap) : option T := u_value <$> u_slots h !! p.

(** [*refmut = v] through [DerefMut for RefMut]: a write to the slot. *)
Definition u_assign (r : URefMut) (v : T) (h : uheap) : uheap :=
  match u_slots h !! urefmut_ptr r with
  | Some sl => u_update (urefmut_ptr r) (USlot v (u_strong sl)) h
  | None => h
  end.

(** Views held for a scope; a plain reference has no [Drop]. *)
Definition u_with_ref {A} (s : SCell) (body : T -> M uheap A) : M uheap A :=
  r <- u_borrow s ;;
  fun h =>
    match u_deref (uref_ptr r) h with
    | Some v => body v h
    | None => (Err Dangling, h)
    end.

Definition u_with_ref_mut {A} (s : SCell) (f : T -> T) (body : M uheap A) : M uheap A :=
  r <- u_borrow_mut s ;;
  fun h =>
    match u_deref (urefmut_ptr r) h with
    | Some v => body (u_assign r (f v) h)
    | None => (Err Dangling, h)
    end.

(** The unchecked forwarding impls: [op(&*self.borrow(), &*other.borrow())],
    with no pointer comparison. *)
Definition u_forward2 {A} (op : T -> T -> A) (s o : SCell) : M uheap A :=
  u_with_ref s (fun a => u_with_ref o (fun b => ret (op a b))).

Context `{PartialEq T} `{PartialOrd T} `{Ord T}.

Definition u_eq := u_forward2 eq.
Definition u_ne := u_forward2 ne.
Definition u_partial_cmp := u_forward2 partial_cmp.
Definition u_lt := u_forward2 lt.
Definition u_le := u_forward2 le.
Definition u_gt := u_forward2 gt.
Definition u_ge := u_forward2 ge.
Definition u_cmp := u_forward2 cmp.
End Unchecked.
Arguments uslot : clear implicits.
Arguments uheap : clear implicits.

Definition c_empty {T} : cheap T := CHeap ∅ 0.
Definition u_empty {T} : uheap T := UHeap ∅ 0.

(** ** A contained type: the comparison of Rust's [f64], on integral values
    and NaN.  NaN compares unequal and unordered to everything, itself
    included ([PartialEq]/[PartialOrd] for [f64] follow IEEE 754). *)
Inductive f64 := Fin (z : Z) | NaN.

#[export] Instance f64_PartialEq : PartialEq f64 := {
  eq a b := match a, b with Fin x, Fin y => Z.eqb x y | _, _ => false end;
  ne a b := match a, b with Fin x, Fin y => negb (Z.eqb x y) | _, _ => true end
}.

#[export] Instance f64_PartialOrd : PartialOrd f64 := {
  partial_cmp a b := match a, b with Fin x, Fin y => Some (Z.compare x y) | _, _ => None end;
  lt a b := match a, b with Fin x, Fin y => Z.ltb x y | _, _ => false end;
  le a b := match a, b with Fin x, Fin y => Z.leb x y | _, _ => false end;
  gt a b := match a, b with Fin x, Fin y => Z.ltb y x | _, _ => false end;
  ge a b := match a, b with Fin x, Fin y => Z.leb y x | _, _ => false end
}.

(** Unsigned integers as a contained type: [usize] comparisons. *)
#[export] Instance nat_PartialEq : PartialEq nat := {
  eq := Nat.eqb;
  ne a b := negb (Nat.eqb a b)
}.

#[export] Instance nat_PartialOrd : PartialOrd nat := {
  partial_cmp a b := Some (Nat.compare a b);
  lt := Nat.ltb;
  le := Nat.leb;
  gt a b := Nat.ltb b a;
  ge a b := Nat.leb b a
}.

#[export] Instance nat_Ord : Ord nat := { cmp := Nat.compare }.

(** Wrap [t], clone the handle, and run a binary operation on the two
    handles, from an empty heap; no view is held at the call. *)
Definition c_on_clones {T A} (t : T) (op : SCell -> SCell -> M (cheap T) A) : result A :=
  fst ((s <- c_new t ;; s2 <- c_clone s ;; op s s2) c_empty).

Definition u_on_clones {T A} (t : T) (op : SCell -> SCell -> M (uheap T) A) : result A :=
  fst ((s <- u_new t ;; s2 <- u_clone s ;; op s s2) u_empty).

(** ** Outstanding views of a checked program

    A configuration is the heap together with the views the program holds
    (each [Ref]/[RefMut] value still alive).  A step creates a cell, clones
    a handle, acquires a view (or panics trying), writes through a held
    write view, drops a held view, or runs one of the forwarding
    comparisons. *)
Inductive view := RdV (p : ptr) | WrV (p : ptr).

Fixpoint nreads (p : ptr) (vs : list view) : nat :=
  match vs with
  | [] => 0
  | RdV q :: vs' => (if Nat.eqb q p then 1 else 0) + nreads p vs'
  | WrV _ :: vs' => nreads p vs'
  end.

Fixpoint nwrites (p : ptr) (vs : list view) : nat :=
  match vs with
  | [] => 0
  | WrV q :: vs' => (if Nat.eqb q p then 1 else 0) + nwrites p vs'
  | RdV _ :: vs' => nwrites p vs'
  end.

Section Views.
Context {T : Type}.

Record cfg := Cfg { cf_heap : cheap T; cf_views : list view }.

Inductive cstep : cfg -> cfg -> Prop :=
| cs_new t h vs s h' :
    c_new t h = (Ok s, h') -> cstep (Cfg h vs) (Cfg h' vs)
| cs_clone s h vs r h' :
    c_clone s h = (r, h') -> cstep (Cfg h vs) (Cfg h' vs)
| cs_borrow s h vs r h' :
    c_borrow s h = (Ok r, h') -> cstep (Cfg h vs) (Cfg h' (RdV (ref_ptr r) :: vs))
| cs_borrow_panic s h vs e h' :
    c_borrow s h = (Err e, h') -> cstep (Cfg h vs) (Cfg h' vs)
| cs_borrow_mut s h vs r h' :
    c_borrow_mut s h = (Ok r, h') -> cstep (Cfg h vs) (Cfg h' (WrV (refmut_ptr r) :: vs))
| cs_borrow_mut_panic s h vs e h' :
    c_borrow_mut s h = (Err e, h') -> cstep (Cfg h vs) (Cfg h' vs)
| cs_assign p v h vs1 vs2 :
    cstep (Cfg h (vs1 ++ WrV p :: vs2))
          (Cfg (c_assign (RefMutC p) v h) (vs1 ++ WrV p :: vs2))
| cs_drop_ref p h vs1 vs2 :
    cstep (Cfg h (vs1 ++ RdV p :: vs2)) (Cfg (c_drop_ref (RefC p) h) (vs1 ++ vs2))
| cs_drop_refmut p h vs1 vs2 :
    cstep (Cfg h (vs1 ++ WrV p :: vs2)) (Cfg (c_drop_refmut (RefMutC p) h) (vs1 ++ vs2))
| cs_forward (A : Type) (same : A) (op : T -> T -> A) s o h vs r h' :
    c_forward2 same op s o h = (r, h') -> cstep (Cfg h vs) (Cfg h' vs).

Inductive creach : cfg -> Prop :=
| cr_init : creach (Cfg c_empty [])
| cr_step c c' : creach c -> cstep c c' -> creach c'.

(** The flag of a slot against the views held on it. *)
Definition flag_matches (f : BorrowState) (nr nw : nat) : Prop :=
  match f with
  | Unborrowed => nr = 0 /\ nw = 0
  | SharedRead n => nr = Pos.to_nat n /\ nw = 0
  | Exclusive => nr = 0 /\ nw = 1
  end.

Definition cfg_inv (c : cfg) : Prop :=
  (forall p sl, c_slots (cf_heap c) !! p = Some sl ->
     flag_matches (c_flag sl) (nreads p (cf_views c)) (nwrites p (cf_views c))) /\
  (forall p, c_slots (cf_heap c) !! p = None ->
     nreads p (cf_views c) = 0 /\ nwrites p (cf_views c) = 0) /\
  (forall p : ptr, c_next (cf_heap c) <= p -> c_slots (cf_heap c) !! p = None).

(** The flags of all slots. *)
Definition c_flags (h : cheap T) : gmap ptr BorrowState := c_flag <$> c_slots h.
End Views.
Arguments cfg : clear implicits.

(** ** The traits forwarded by the crate root ([src/src/lib.rs]):
    [Hash], [Display] and [Debug] of [T].  A
    [Hasher] is observed through the bytes written to it, so its state is
    that byte sequence; a [Formatter] is observed through the text written. *)
Class Hash (T : Type) := { hash : T -> list nat -> list nat }.
Class Display (T : Type) := { fmt_display : T -> string }.
Class Debug (T : Type) := { fmt_debug : T -> string }.

Section Forwarding.
Context {T : Type} `{Hash T} `{Display T} `{Debug T}.

(** checked (lib.rs): [self.borrow().hash(state)], [self.borrow().fmt(f)] *)
Definition c_hash (s : SCell) (state : list nat) : M (cheap T) (list nat) :=
  with_ref s (fun v => ret (hash v state)).
Definition c_display (s : SCell) : M (cheap T) string :=
  with_ref s (fun v => ret (fmt_display v)).
Definition c_debug (s : SCell) : M (cheap T) string :=
  with_ref s (fun v => ret (fmt_debug v)).

End Forwarding.

(** Hash and text output of [usize] values: the hasher is fed the value,
    [Display] and [Debug] both print its decimal digits. *)
#[export] Instance nat_Hash : Hash nat := { hash n st := st ++ [n] }.
#[export] Instance nat_Display : Display nat := { fmt_display n := pretty n }.
#[export] Instance nat_Debug : Debug nat := { fmt_debug n := pretty n }.

(** The unchecked heap a checked heap stands for: the same slots with the
    borrow flags left out ([RefCell<T>] versus [UnsafeCell<T>]). *)
Definition erase_slot {T} (sl : cslot T) : uslot T := USlot (c_value sl) (c_strong sl).
Definition erase {T} (h : cheap T) : uheap T := UHeap (erase_slot <$> c_slots h) (c_next h).

(** A forwarded comparison on two distinct slots with flags [fs] and [fo]:
    it panics if a read view is refused on either (mutably borrowed, or
    [isize::MAX] readers), otherwise yields [x]. *)
Definition read_pair {A} (fs fo : BorrowState) (x : A) : result A :=
  match acquire_read fs, acquire_read fo with
  | Some _, Some _ => Ok x
  | _, _ => Err AlreadyMutablyBorrowed
  end.

(** A forwarded read of one slot with flag [f]: it panics if a read view is
    refused on the slot, otherwise yields [x]. *)
Definition read_one {A} (f : BorrowState) (x : A) : result A :=
  match acquire_read f with
  | Some _ => Ok x
  | None => Err AlreadyMutablyBorrowed
  end.

(** * Lemmas *)

Create HintDb scell.

Lemma nreads_app p vs1 vs2 : nreads p (vs1 ++ vs2) = nreads p vs1 + nreads p vs2.
Proof. induction vs1 as [|[q|q] vs IH]; simpl; rewrite ?IH; lia. Qed.

Lemma nwrites_app p vs1 vs2 : nwrites p (vs1 ++ vs2) = nwrites p vs1 + nwrites p vs2.
Proof. induction vs1 as [|[q|q] vs IH]; simpl; rewrite ?IH; lia. Qed.

Lemma release_acquire_read f f' : acquire_read f = Some f' -> release_read f' = f.
Proof.
  destruct f as [|n|]; simpl; intros E; [inversion E; reflexivity | | discriminate].
  destruct (n <? isize_max)%positive; inversion E; subst.
  pose proof (Pos.pred_succ n) as Hp. pose proof (Pos.succ_not_1 n) as H1.
  destruct (Pos.succ n) eqn:Es; simpl; [f_equal; congruence | f_equal; congruence | congruence].
Qed.

Lemma release_acquire_write f f' : acquire_write f = Some f' -> release_write f' = f.
Proof. destruct f; simpl; intros E; inversion E; reflexivity. Qed.

Lemma c_update_twice {T} p (sl sl' : cslot T) h :
  c_update p sl (c_update p sl' h) = c_update p sl h.
Proof. unfold c_update; simpl. by rewrite insert_insert_eq. Qed.

Lemma c_update_id {T} p (sl : cslot T) h :
  c_slots h !! p = Some sl -> c_update p sl h = h.
Proof. intros E. destruct h as [m n]; unfold c_update; simpl in *. by rewrite insert_id. Qed.

Lemma c_borrow_err_heap {T} s (h h' : cheap T) e :
  c_borrow s h = (Err e, h') -> h' = h.
Proof.
  unfold c_borrow. destruct (c_slots h !! rc s) as [sl|]; [|congruence].
  destruct (acquire_read (c_flag sl)); congruence.
Qed.

Lemma c_borrow_mut_err_heap {T} s (h h' : cheap T) e :
  c_borrow_mut s h = (Err e, h') -> h' = h.
Proof.
  unfold c_borrow_mut. destruct (c_slots h !! rc s) as [sl|]; [|congruence].
  destruct (acquire_write (c_flag sl)); congruence.
Qed.

(** A read scope whose body leaves the heap as it found it leaves the heap
    exactly unchanged: the guard's drop undoes the borrow. *)
Lemma with_ref_heap {T A} s (body : T -> M (cheap T) A) h :
  (forall v h0, snd (body v h0) = h0) -> snd (with_ref s body h) = h.
Proof.
  intros Hb. unfold with_ref, bind, c_borrow.
  destruct (c_slots h !! rc s) as [sl|] eqn:Es; [|reflexivity].
  destruct (acquire_read (c_flag sl)) as [f|] eqn:Ef; [|reflexivity].
  simpl. unfold c_deref; simpl. rewrite lookup_insert_eq; simpl.
  destruct (body (c_value sl) _) as [res h'] eqn:Eb.
  pose proof (Hb (c_value sl) (c_update (rc s) (with_flag sl f) h)) as Hh.
  rewrite Eb in Hh; simpl in Hh; subst h'. simpl.
  unfold c_drop_ref; simpl. rewrite lookup_insert_eq; simpl.
  rewrite (release_acquire_read _ _ Ef).
  change (c_update (rc s) (with_flag (with_flag sl f) (c_flag sl))
            (c_update (rc s) (with_flag sl f) h) = h).
  rewrite c_update_twice. unfold with_flag at 1; simpl.
  apply c_update_id. rewrite Es. destruct sl; reflexivity.
Qed.

Lemma c_forward2_heap {T A} (same : A) (op : T -> T -> A) s o h :
  snd (c_forward2 same op s o h) = h.
Proof.
  unfold c_forward2. destruct (same_ptr s o); [reflexivity|].
  apply with_ref_heap. intros v h0. apply with_ref_heap. reflexivity.
Qed.

Lemma flag_matches_acquire_read f f' nr nw :
  acquire_read f = Some f' -> flag_matches f nr nw -> flag_matches f' (S nr) nw.
Proof.
  destruct f as [|n|]; simpl; intros E; [| destruct (n <? isize_max)%positive |];
    inversion E; subst; simpl; intros [-> ->].
  - split; reflexivity.
  - rewrite Pos2Nat.inj_succ. split; reflexivity.
Qed.

Lemma flag_matches_acquire_write f f' nr nw :
  acquire_write f = Some f' -> flag_matches f nr nw -> flag_matches f' nr (S nw).
Proof. destruct f; simpl; intros E; inversion E; subst; simpl; intros [-> ->]; split; reflexivity. Qed.

Lemma flag_matches_release_read f nr nw :
  flag_matches f (S nr) nw -> flag_matches (release_read f) nr nw.
Proof.
  destruct f as [|n|]; simpl; intros [E1 E2]; try lia.
  destruct n as [q|q|]; simpl in *.
  - rewrite Pos2Nat.inj_pred by lia. lia.
  - rewrite Pos2Nat.inj_pred by lia. lia.
  - lia.
Qed.

Lemma flag_matches_release_write f nr nw :
  flag_matches f nr (S nw) -> flag_matches (release_write f) nr nw.
Proof. destruct f; simpl; intros [E1 E2]; lia. Qed.

Lemma nreads_cons_ne p q vs : q <> p -> nreads q (RdV p :: vs) = nreads q vs.
Proof. intros Hne. simpl. destruct (Nat.eqb_spec p q); [congruence | reflexivity]. Qed.

Lemma nwrites_cons_ne p q vs : q <> p -> nwrites q (WrV p :: vs) = nwrites q vs.
Proof. intros Hne. simpl. destruct (Nat.eqb_spec p q); [congruence | reflexivity]. Qed.

Lemma cfg_inv_init {T} : cfg_inv (@Cfg T c_empty []).
Proof.
  split; [|split]; simpl.
  - intros p sl Hp. rewrite lookup_empty in Hp. discriminate.
  - intros p _. split; reflexivity.
  - intros p _. apply lookup_empty.
Qed.

(** Updating an existing slot keeps the invariant when the new flag matches
    the new views on that slot and no other slot's views change. *)
Lemma cfg_inv_update {T} (h : cheap T) vs vs' p sl0 sl :
  c_slots h !! p = Some sl0 ->
  cfg_inv (@Cfg T h vs) ->
  flag_matches (c_flag sl) (nreads p vs') (nwrites p vs') ->
  (forall q, q <> p -> nreads q vs' = nreads q vs /\ nwrites q vs' = nwrites q vs) ->
  cfg_inv (@Cfg T (c_update p sl h) vs').
Proof.
  intros Hp (I1 & I2 & I3) Hf Hq. simpl in *. split; [|split]; simpl.
  - intros q sl' Hl. destruct (Nat.eq_dec p q) as [<-|Hne].
    + rewrite lookup_insert_eq in Hl. inversion Hl; subst; exact Hf.
    + rewrite lookup_insert_ne in Hl by exact Hne.
      destruct (Hq q ltac:(congruence)) as [-> ->]. exact (I1 q sl' Hl).
  - intros q Hl. destruct (Nat.eq_dec p q) as [<-|Hne].
    + rewrite lookup_insert_eq in Hl. discriminate.
    + rewrite lookup_insert_ne in Hl by exact Hne.
      destruct (Hq q ltac:(congruence)) as [-> ->]. exact (I2 q Hl).
  - intros q Hle. destruct (Nat.eq_dec p q) as [<-|Hne].
    + specialize (I3 p Hle). congruence.
    + rewrite lookup_insert_ne by exact Hne. exact (I3 q Hle).
Qed.

Lemma cstep_inv {T} (c c' : cfg T) : cfg_inv c -> cstep c c' -> cfg_inv c'.
Proof.
  intros Inv Hs. pose proof Inv as (I1 & I2 & I3).
  inversion Hs as
    [t h vs s h' E | s h vs r h' E | s h vs r h' E | s h vs e h' E
    | s h vs r h' E | s h vs e h' E | p v h vs1 vs2 | p h vs1 vs2
    | p h vs1 vs2 | A same op s o h vs r h' E]; subst; simpl in *.
  - (* new *)
    unfold c_new in E. inversion E; subst. split; [|split]; simpl.
    + intros p sl Hp. rewrite lookup_insert in Hp.
      destruct (decide (c_next h = p)) as [<-|Hne].
      * inversion Hp; subst; simpl. apply I2, I3. lia.
      * exact (I1 p sl Hp).
    + intros p Hp. rewrite lookup_insert in Hp.
      destruct (decide (c_next h = p)); [discriminate | exact (I2 p Hp)].
    + intros p Hle. rewrite lookup_insert.
      destruct (decide (c_next h = p)); [lia | apply I3; lia].
  - (* clone *)
    unfold c_clone in E. destruct (c_slots h !! rc s) as [sl0|] eqn:Es.
    + inversion E; subst. eapply cfg_inv_update; [exact Es | exact Inv | |].
      * simpl. exact (I1 _ _ Es).
      * intros; split; reflexivity.
    + inversion E; subst. exact Inv.
  - (* borrow *)
    unfold c_borrow in E. destruct (c_slots h !! rc s) as [sl0|] eqn:Es; [|discriminate].
    destruct (acquire_read (c_flag sl0)) as [f|] eqn:Ef; [|discriminate].
    inversion E; subst; simpl. eapply cfg_inv_update; [exact Es | exact Inv | |].
    + simpl. rewrite Nat.eqb_refl. simpl.
      exact (flag_matches_acquire_read _ _ _ _ Ef (I1 _ _ Es)).
    + intros q Hne. rewrite nreads_cons_ne by exact Hne. split; reflexivity.
  - (* borrow panics *)
    apply c_borrow_err_heap in E. subst. exact Inv.
  - (* borrow_mut *)
    unfold c_borrow_mut in E. destruct (c_slots h !! rc s) as [sl0|] eqn:Es; [|discriminate].
    destruct (acquire_write (c_flag sl0)) as [f|] eqn:Ef; [|discriminate].
    inversion E; subst; simpl. eapply cfg_inv_update; [exact Es | exact Inv | |].
    + simpl. rewrite Nat.eqb_refl. simpl.
      exact (flag_matches_acquire_write _ _ _ _ Ef (I1 _ _ Es)).
    + intros q Hne. rewrite nwrites_cons_ne by exact Hne. split; reflexivity.
  - (* borrow_mut panics *)
    apply c_borrow_mut_err_heap in E. subst. exact Inv.
  - (* write through a held RefMut *)
    unfold c_assign; simpl. destruct (c_slots h !! p) as [sl0|] eqn:Es; [|exact Inv].
    eapply cfg_inv_update; [exact Es | exact Inv | |].
    + simpl. exact (I1 _ _ Es).
    + intros; split; reflexivity.
  - (* drop a Ref *)
    unfold c_drop_ref; simpl. destruct (c_slots h !! p) as [sl0|] eqn:Es.
    + eapply cfg_inv_update; [exact Es | exact Inv | |].
      * simpl. apply flag_matches_release_read.
        pose proof (I1 _ _ Es) as F. rewrite nreads_app, nwrites_app in *. simpl in F.
        rewrite Nat.eqb_refl in F. simpl in F.
        replace (S (nreads p vs1 + nreads p vs2)) with (nreads p vs1 + S (nreads p vs2)) by lia.
        exact F.
      * intros q Hne. rewrite !nreads_app, !nwrites_app. simpl.
        destruct (Nat.eqb_spec p q); [congruence|]. split; reflexivity.
    + exfalso. destruct (I2 _ Es) as [F _]. rewrite nreads_app in F. simpl in F.
      rewrite Nat.eqb_refl in F. lia.
  - (* drop a RefMut *)
    unfold c_drop_refmut; simpl. destruct (c_slots h !! p) as [sl0|] eqn:Es.
    + eapply cfg_inv_update; [exact Es | exact Inv | |].
      * simpl. apply flag_matches_release_write.
        pose proof (I1 _ _ Es) as F. rewrite nreads_app, nwrites_app in *. simpl in F.
        rewrite Nat.eqb_refl in F. simpl in F.
        replace (S (nwrites p vs1 + nwrites p vs2)) with (nwrites p vs1 + S (nwrites p vs2)) by lia.
        exact F.
      * intros q Hne. rewrite !nreads_app, !nwrites_app. simpl.
        destruct (Nat.eqb_spec p q); [congruence|]. split; reflexivity.
    + exfalso. destruct (I2 _ Es) as [_ F]. rewrite nwrites_app in F. simpl in F.
      rewrite Nat.eqb_refl in F. lia.
  - (* a forwarding comparison *)
    pose proof (c_forward2_heap same op s o h) as Hh. rewrite E in Hh. simpl in Hh.
    subst. exact Inv.
Qed.

Lemma creach_inv {T} (c : cfg T) : creach c -> cfg_inv c.
Proof.
  induction 1 as [|c c' _ IH Hs].
  - apply cfg_inv_init.
  - exact (cstep_inv c c' IH Hs).
Qed.

Lemma c_flags_update {T} p (sl : cslot T) h :
  c_flags (c_update p sl h) = <[p := c_flag sl]> (c_flags h).
Proof. unfold c_flags, c_update; simpl. by rewrite fmap_insert. Qed.

Lemma c_flags_lookup {T} (h : cheap T) p : c_flags h !! p = c_flag <$> c_slots h !! p.
Proof. unfold c_flags. apply lookup_fmap. Qed.

Lemma c_flags_assign {T} r v (h : cheap T) : c_flags (c_assign r v h) = c_flags h.
Proof.
  unfold c_assign. destruct (c_slots h !! refmut_ptr r) as [sl|] eqn:Es; [|reflexivity].
  rewrite c_flags_update. simpl. apply insert_id. rewrite c_flags_lookup, Es. reflexivity.
Qed.

(** Dropping a guard on a slot whose flag is [f'] sets it to [rel f']. *)
Lemma c_flags_drop {T} p (h h' : cheap T) (f' : BorrowState) (rel : BorrowState -> BorrowState) sl :
  c_slots h !! p = Some sl ->
  rel f' = c_flag sl ->
  c_flags h' = <[p := f']> (c_flags h) ->
  c_flags (match c_slots h' !! p with
           | Some sl' => c_update p (with_flag sl' (rel (c_flag sl'))) h'
           | None => h'
           end) = c_flags h.
Proof.
  intros Es Hrel Hf. pose proof (f_equal (lookup p) Hf) as Hp.
  rewrite lookup_insert_eq, c_flags_lookup in Hp.
  destruct (c_slots h' !! p) as [sl'|]; simpl in Hp; inversion Hp as [Hf'].
  rewrite c_flags_update. simpl. rewrite Hf', Hf, Hrel, insert_insert_eq.
  apply insert_id. rewrite c_flags_lookup, Es. reflexivity.
Qed.

Lemma with_ref_flags {T A} s (body : T -> M (cheap T) A) h :
  (forall v h0, c_flags (snd (body v h0)) = c_flags h0) ->
  c_flags (snd (with_ref s body h)) = c_flags h.
Proof.
  intros Hb. unfold with_ref, bind, c_borrow.
  destruct (c_slots h !! rc s) as [sl|] eqn:Es; [|reflexivity].
  destruct (acquire_read (c_flag sl)) as [f|] eqn:Ef; [|reflexivity].
  simpl. unfold c_deref; simpl. rewrite lookup_insert_eq; simpl.
  pose proof (Hb (c_value sl) (c_update (rc s) (with_flag sl f) h)) as Hh.
  destruct (body (c_value sl) _) as [res h'] eqn:Eb. simpl in *.
  rewrite c_flags_update in Hh. simpl in Hh.
  exact (c_flags_drop (rc s) h h' f release_read sl Es (release_acquire_read _ _ Ef) Hh).
Qed.

Lemma with_ref_mut_flags {T A} s (g : T -> T) (body : M (cheap T) A) h :
  (forall h0, c_flags (snd (body h0)) = c_flags h0) ->
  c_flags (snd (with_ref_mut s g body h)) = c_flags h.
Proof.
  intros Hb. unfold with_ref_mut, bind, c_borrow_mut.
  destruct (c_slots h !! rc s) as [sl|] eqn:Es; [|reflexivity].
  destruct (acquire_write (c_flag sl)) as [f|] eqn:Ef; [|reflexivity].
  simpl. unfold c_deref; simpl. rewrite lookup_insert_eq; simpl.
  set (h1 := c_assign _ _ _).
  pose proof (Hb h1) as Hh.
  destruct (body h1) as [res h'] eqn:Eb. simpl in *.
  unfold h1 in Hh. rewrite c_flags_assign, c_flags_update in Hh. simpl in Hh.
  exact (c_flags_drop (rc s) h h' f release_write sl Es (release_acquire_write _ _ Ef) Hh).
Qed.


(** Concrete checked configurations over [nat]: one cell holding 5, then a
    read view held on it, a write view held on it, the read view dropped. *)
Definition h5 : cheap nat := snd (c_new 5 c_empty).
Definition cfg_fresh : cfg nat := Cfg h5 [].
Definition cfg_read : cfg nat := Cfg (snd (c_borrow (SCellC 0) h5)) [RdV 0].
Definition cfg_write : cfg nat := Cfg (snd (c_borrow_mut (SCellC 0) h5)) [WrV 0].
Definition cfg_released : cfg nat := Cfg (c_drop_ref (RefC 0) (cf_heap cfg_read)) [].

Lemma cfg_fresh_reach : creach cfg_fresh.
Proof. eapply cr_step; [apply cr_init | eapply cs_new; reflexivity]. Qed.

Lemma cfg_read_reach : creach cfg_read.
Proof.
  eapply cr_step; [apply cfg_fresh_reach|].
  apply (cs_borrow (SCellC 0) h5 [] (RefC 0)). reflexivity.
Qed.

Lemma cfg_write_reach : creach cfg_write.
Proof.
  eapply cr_step; [apply cfg_fresh_reach|].
  apply (cs_borrow_mut (SCellC 0) h5 [] (RefMutC 0)). reflexivity.
Qed.

Lemma cfg_released_reach : creach cfg_released.
Proof. eapply cr_step; [apply cfg_read_reach | apply (cs_drop_ref 0 _ [] [])]. Qed.

(** [isize::MAX] successive [borrow]s of cell 0 (the guards held or leaked
    with [mem::forget]; either way none is dropped). *)
Definition leak_reads (k : positive) : cheap nat :=
  Pos.iter (fun h0 => snd (c_borrow (SCellC 0) h0)) h5 k.
Definition cfg_reads (k : positive) : cfg nat :=
  Cfg (leak_reads k) (repeat (RdV 0) (Pos.to_nat k)).
Definition cfg_max_reads : cfg nat := cfg_reads isize_max.

Lemma leak_reads_heap k :
  (k <= isize_max)%positive -> leak_reads k = c_update 0 (CSlot 5 (SharedRead k) 1) h5.
Proof.
  induction k as [|k IH] using Pos.peano_ind; intros Hk; [reflexivity|].
  unfold leak_reads. rewrite Pos.iter_succ. fold (leak_reads k).
  rewrite IH by lia. unfold c_borrow at 1, c_update at 1. cbn [c_slots rc].
  rewrite lookup_insert_eq. cbn [c_flag]. unfold acquire_read.
  assert (Hlt : (k <? isize_max)%positive = true) by (apply Pos.ltb_lt; lia).
  rewrite Hlt. cbn [snd]. unfold with_flag; cbn [c_value c_strong]. apply c_update_twice.
Qed.

Lemma nreads_repeat n : nreads 0 (repeat (RdV 0) n) = n.
Proof. induction n as [|n IH]; simpl; [reflexivity | rewrite IH; reflexivity]. Qed.

Lemma leak_reads_reach k : (k <= isize_max)%positive -> creach (cfg_reads k).
Proof.
  induction k as [|k IH] using Pos.peano_ind; intros Hk; [exact cfg_read_reach|].
  unfold cfg_reads. rewrite Pos2Nat.inj_succ. cbn [repeat].
  eapply cr_step; [exact (IH ltac:(lia))|].
  unfold cfg_reads. unfold leak_reads at 2. rewrite Pos.iter_succ. fold (leak_reads k).
  apply (cs_borrow (SCellC 0) (leak_reads k) _ (RefC 0)).
  assert (Hf : fst (c_borrow (SCellC 0) (leak_reads k)) = Ok (RefC 0)).
  { rewrite (leak_reads_heap k) by lia. unfold c_borrow at 1, c_update at 1. cbn [c_slots rc].
    rewrite lookup_insert_eq. cbn [c_flag]. unfold acquire_read.
    assert (Hlt : (k <? isize_max)%positive = true) by (apply Pos.ltb_lt; lia).
    rewrite Hlt. reflexivity. }
  destruct (c_borrow (SCellC 0) (leak_reads k)) as [r h']. simpl in Hf. subst r. reflexivity.
Qed.

(** * Claims *)

(** C3: In the checked variant the borrow flag of a slot follows exactly:
    [borrow] takes [Unborrowed] to [SharedRead 1], [SharedRead n] to
    [SharedRead (n+1)] when [n < isize::MAX], and panics ("already mutably
    borrowed") from [SharedRead isize::MAX] and from [Exclusive];
    [borrow_mut] takes [Unborrowed] to [Exclusive] and panics from
    [SharedRead _] and [Exclusive] (a panic leaves the heap as it was).
    Hence, in every reachable program state, a further read view on a slot
    on which fewer than [isize::MAX] read views are held, at least one, is
    granted, a write view on a slot on which any view is held is refused,
    and a read view on a slot with a held write view is refused. *)
Theorem C3_checked_state_machine {T} :
  (forall (h : cheap T) s sl, c_slots h !! rc s = Some sl ->
     c_borrow s h =
       match c_flag sl with
       | Unborrowed => (Ok (RefC (rc s)), c_update (rc s) (with_flag sl (SharedRead 1)) h)
       | SharedRead n =>
           if (n <? isize_max)%positive
           then (Ok (RefC (rc s)), c_update (rc s) (with_flag sl (SharedRead (Pos.succ n))) h)
           else (Err AlreadyMutablyBorrowed, h)
       | Exclusive => (Err AlreadyMutablyBorrowed, h)
       end /\
     c_borrow_mut s h =
       match c_flag sl with
       | Unborrowed => (Ok (RefMutC (rc s)), c_update (rc s) (with_flag sl Exclusive) h)
       | SharedRead _ | Exclusive => (Err AlreadyBorrowed, h)
       end) /\
  (forall (c : cfg T) s, creach c -> 0 < nreads (rc s) (cf_views c) ->
     (N.of_nat (nreads (rc s) (cf_views c)) < Npos isize_max)%N ->
     exists r h', c_borrow s (cf_heap c) = (Ok r, h')) /\
  (forall (c : cfg T) s, creach c ->
     0 < nreads (rc s) (cf_views c) + nwrites (rc s) (cf_views c) ->
     c_borrow_mut s (cf_heap c) = (Err AlreadyBorrowed, cf_heap c)) /\
  (forall (c : cfg T) s, creach c -> 0 < nwrites (rc s) (cf_views c) ->
     c_borrow s (cf_heap c) = (Err AlreadyMutablyBorrowed, cf_heap c)).
Proof.
  split; [|split; [|split]].
  - intros h s sl Es. unfold c_borrow, c_borrow_mut. rewrite Es.
    destruct (c_flag sl) as [|n|]; unfold acquire_read, acquire_write;
      [split; reflexivity | | split; reflexivity].
    destruct (n <? isize_max)%positive; split; reflexivity.
  - intros c s Hr Hn Hm. destruct (creach_inv c Hr) as (I1 & I2 & _).
    unfold c_borrow. destruct (c_slots (cf_heap c) !! rc s) as [sl|] eqn:Es.
    + pose proof (I1 _ _ Es) as F. destruct (c_flag sl) as [|n|]; simpl in F; try lia.
      unfold acquire_read.
      assert (Hlt : (n <? isize_max)%positive = true) by (apply Pos.ltb_lt; lia).
      rewrite Hlt. eauto.
    + destruct (I2 _ Es). lia.
  - intros c s Hr Hn. destruct (creach_inv c Hr) as (I1 & I2 & _).
    unfold c_borrow_mut. destruct (c_slots (cf_heap c) !! rc s) as [sl|] eqn:Es.
    + pose proof (I1 _ _ Es) as F. destruct (c_flag sl); simpl in F; simpl; try reflexivity. lia.
    + destruct (I2 _ Es). lia.
  - intros c s Hr Hn. destruct (creach_inv c Hr) as (I1 & I2 & _).
    unfold c_borrow. destruct (c_slots (cf_heap c) !! rc s) as [sl|] eqn:Es.
    + pose proof (I1 _ _ Es) as F. destruct (c_flag sl); simpl in F; simpl; try reflexivity; lia.
    + destruct (I2 _ Es). lia.
Qed.

Lemma C3_witness :
  (fst (c_borrow (SCellC 0) h5) = Ok (RefC 0) /\
   fst (c_borrow_mut (SCellC 0) h5) = Ok (RefMutC 0)) /\
  (exists r h', c_borrow (SCellC 0) (cf_heap cfg_read) = (Ok r, h')) /\
  c_borrow_mut (SCellC 0) (cf_heap cfg_read) = (Err AlreadyBorrowed, cf_heap cfg_read) /\
  c_borrow (SCellC 0) (cf_heap cfg_write) = (Err AlreadyMutablyBorrowed, cf_heap cfg_write).
Proof.
  destruct (C3_checked_state_machine (T:=nat)) as (P1 & P2 & P3 & P4).
  split; [|split; [|split]].
  - destruct (P1 h5 (SCellC 0) (CSlot 5 Unborrowed 1) ltac:(reflexivity)) as [E1 E2].
    rewrite E1, E2. split; reflexivity.
  - apply (P2 cfg_read (SCellC 0) cfg_read_reach); [simpl; lia | vm_compute; reflexivity].
  - apply (P3 cfg_read (SCellC 0) cfg_read_reach). simpl. lia.
  - apply (P4 cfg_write (SCellC 0) cfg_write_reach). simpl. lia.
Defined.

(** An unbounded [SharedRead n -> SharedRead (n+1)] fails at the bound:
    from a fresh cell, borrowing [isize::MAX] times while holding every
    guard is a reachable state in which a read view is held and the next
    [borrow] panics. *)
Lemma C3_counterexample :
  creach cfg_max_reads /\ 0 < nreads 0 (cf_views cfg_max_reads) /\
  c_borrow (SCellC 0) (cf_heap cfg_max_reads) = (Err AlreadyMutablyBorrowed, cf_heap cfg_max_reads).
Proof.
  split; [|split].
  - apply leak_reads_reach. apply Pos.le_refl.
  - unfold cfg_max_reads, cfg_reads. cbn [cf_views]. rewrite nreads_repeat. apply Pos2Nat.is_pos.
  - unfold cfg_max_reads, cfg_reads. cbn [cf_heap]. rewrite (leak_reads_heap isize_max (Pos.le_refl _)).
    unfold c_borrow at 1, c_update at 1. cbn [c_slots rc].
    rewrite lookup_insert_eq. cbn [c_flag]. unfold acquire_read.
    rewrite Pos.ltb_irrefl. reflexivity.
Qed.

(** C5: In the checked variant, once no view on a slot is held any more
    (in any reachable program state) its flag is [Unborrowed] and both a
    read and a write view are granted.  A scoped view releases its flag
    when the scope is left on every path: whatever the body returns, a
    normal result or a panic, if the body leaves the flags as it found
    them then so does the scope, including the acquire that panics. *)
Theorem C5_release_restores {T} :
  (forall (c : cfg T) p sl, creach c -> c_slots (cf_heap c) !! p = Some sl ->
     nreads p (cf_views c) = 0 -> nwrites p (cf_views c) = 0 ->
     c_flag sl = Unborrowed /\
     (exists r h', c_borrow (SCellC p) (cf_heap c) = (Ok r, h')) /\
     (exists w h', c_borrow_mut (SCellC p) (cf_heap c) = (Ok w, h'))) /\
  (forall A s (body : T -> M (cheap T) A) h,
     (forall v h0, c_flags (snd (body v h0)) = c_flags h0) ->
     c_flags (snd (with_ref s body h)) = c_flags h) /\
  (forall A s g (body : M (cheap T) A) h,
     (forall h0, c_flags (snd (body h0)) = c_flags h0) ->
     c_flags (snd (with_ref_mut s g body h)) = c_flags h).
Proof.
  split; [|split].
  - intros c p sl Hr Es Hr0 Hw0. destruct (creach_inv c Hr) as (I1 & _ & _).
    pose proof (I1 _ _ Es) as F. rewrite Hr0, Hw0 in F.
    assert (c_flag sl = Unborrowed) as Hu.
    { destruct (c_flag sl); simpl in F; [reflexivity | lia | lia]. }
    split; [exact Hu|]. unfold c_borrow, c_borrow_mut; simpl. rewrite Es, Hu. simpl. split; do 2 eexists; reflexivity.
  - intros A s body h Hb. exact (with_ref_flags s body h Hb).
  - intros A s g body h Hb. exact (with_ref_mut_flags s g body h Hb).
Qed.

Lemma C5_witness :
  (c_flag (CSlot 5 Unborrowed 1) = Unborrowed /\
   (exists r h', c_borrow (SCellC 0) (cf_heap cfg_released) = (Ok r, h')) /\
   (exists w h', c_borrow_mut (SCellC 0) (cf_heap cfg_released) = (Ok w, h'))) /\
  c_flags (snd (with_ref (SCellC 0) (fun _ h0 => (@Err unit AlreadyBorrowed, h0)) h5)) = c_flags h5 /\
  c_flags (snd (with_ref_mut (SCellC 0) S (ret tt) h5)) = c_flags h5.
Proof.
  destruct (C5_release_restores (T:=nat)) as (P1 & P2 & P3).
  split; [|split].
  - apply (P1 cfg_released 0 (CSlot 5 Unborrowed 1) cfg_released_reach);
      vm_compute; reflexivity.
  - apply P2. intros v h0. reflexivity.
  - apply P3. reflexivity.
Defined.

(** C4: In the unchecked variant [borrow] and [borrow_mut] succeed on every
    heap, whatever was done before, leave the heap untouched, and return a
    reference to the slot itself: a read through the read view yields the
    slot's value, and a write through a write view is seen through it. *)
Theorem C4_unchecked_borrow_total {T} (h : uheap T) s (v : T) :
  u_borrow s h = (Ok (URefC (rc s)), h) /\
  u_borrow_mut s h = (Ok (URefMutC (rc s)), h) /\
  u_deref (uref_ptr (URefC (rc s))) h = u_value <$> u_slots h !! rc s /\
  u_deref (uref_ptr (URefC (rc s))) (u_assign (URefMutC (rc s)) v h)
    = (fun _ => v) <$> u_slots h !! rc s.
Proof.
  split; [reflexivity | split; [reflexivity | split; [reflexivity |]]].
  unfold u_deref, u_assign; simpl.
  destruct (u_slots h !! rc s) as [sl|] eqn:Es; simpl.
  - unfold u_update; simpl. rewrite lookup_insert_eq. reflexivity.
  - rewrite Es. reflexivity.
Qed.

(** C7: Wrapping a value ([From<T>], i.e. [SCell::new]) and immediately
    taking a read view yields that value, in both variants and from any
    heap. *)
Theorem C7_wrap_then_read {T} (t : T) (h : cheap T) (uh : uheap T) :
  match c_from t h with
  | (Ok s, h1) =>
      match c_borrow s h1 with
      | (Ok r, h2) => c_deref (ref_ptr r) h2 = Some t
      | (Err _, _) => False
      end
  | (Err _, _) => False
  end /\
  match u_from t uh with
  | (Ok s, h1) =>
      match u_borrow s h1 with
      | (Ok r, h2) => u_deref (uref_ptr r) h2 = Some t
      | (Err _, _) => False
      end
  | (Err _, _) => False
  end.
Proof.
  split.
  - unfold c_from, c_new, c_borrow, c_deref; simpl. rewrite lookup_insert_eq; simpl.
    unfold c_update; simpl. rewrite lookup_insert_eq. reflexivity.
  - unfold u_from, u_new, u_borrow, u_deref; simpl. rewrite lookup_insert_eq. reflexivity.
Qed.

(** C8: Cloning a handle succeeds whatever the flag of its slot (also while
    a read or a write view is held), returns a handle to the same slot, and
    changes nothing but the slot's strong count: the value, every flag and
    every other slot are as before; in both variants. *)
Theorem C8_clone_pure {T} :
  (forall (h : cheap T) s sl, c_slots h !! rc s = Some sl ->
     fst (c_clone s h) = Ok s /\
     c_slots (snd (c_clone s h)) !! rc s
       = Some (CSlot (c_value sl) (c_flag sl) (S (c_strong sl))) /\
     c_flags (snd (c_clone s h)) = c_flags h /\
     (forall q, q <> rc s -> c_slots (snd (c_clone s h)) !! q = c_slots h !! q) /\
     c_next (snd (c_clone s h)) = c_next h) /\
  (forall (h : uheap T) s sl, u_slots h !! rc s = Some sl ->
     fst (u_clone s h) = Ok s /\
     u_slots (snd (u_clone s h)) !! rc s = Some (USlot (u_value sl) (S (u_strong sl))) /\
     (forall q, q <> rc s -> u_slots (snd (u_clone s h)) !! q = u_slots h !! q) /\
     u_next (snd (u_clone s h)) = u_next h).
Proof.
  split.
  - intros h [p] sl Es. unfold c_clone; simpl in *. rewrite Es; simpl.
    split; [reflexivity|]. split; [apply lookup_insert_eq|]. split; [|split].
    + rewrite c_flags_update. simpl. apply insert_id. rewrite c_flags_lookup, Es. reflexivity.
    + intros q Hq. apply lookup_insert_ne. congruence.
    + reflexivity.
  - intros h [p] sl Es. unfold u_clone; simpl in *. rewrite Es; simpl.
    split; [reflexivity|]. split; [apply lookup_insert_eq|]. split.
    + intros q Hq. apply lookup_insert_ne. congruence.
    + reflexivity.
Qed.

Lemma C8_witness :
  fst (c_clone (SCellC 0) (cf_heap cfg_write)) = Ok (SCellC 0) /\
  fst (u_clone (SCellC 0) (snd (u_new 5 u_empty))) = Ok (SCellC 0).
Proof.
  destruct (C8_clone_pure (T:=nat)) as [P1 P2]. split.
  - apply (P1 (cf_heap cfg_write) (SCellC 0) (CSlot 5 Exclusive 1)). reflexivity.
  - apply (P2 (snd (u_new 5 u_empty)) (SCellC 0) (USlot 5 1)). reflexivity.
Defined.

(** Wrap [t] into [a], clone [a] into [b], write [v] through a scoped
    write view on [a], then read through a scoped read view on [b]. *)
Definition c_clone_write_read {T} (t v : T) : M (cheap T) T :=
  a <- c_from t ;;
  b <- c_clone a ;;
  _ <- with_ref_mut a (fun _ => v) (ret tt) ;;
  with_ref b (fun x => ret x).

Definition u_clone_write_read {T} (t v : T) : M (uheap T) T :=
  a <- u_from t ;;
  b <- u_clone a ;;
  _ <- u_with_ref_mut a (fun _ => v) (ret tt) ;;
  u_with_ref b (fun x => ret x).

(** C6: A clone is a handle to the same slot: when a write view is taken on
    the original handle, a value is written through it and the view is
    dropped, a read view on the clone is granted and sees the new value; in
    both variants.  In particular wrapping 5, cloning, writing 7 through
    the original and reading through the clone gives 7. *)
Theorem C6_clone_shares_slot {T} :
  (forall (h : cheap T) s sl, c_slots h !! rc s = Some sl ->
     exists s2 h1, c_clone s h = (Ok s2, h1) /\ rc s2 = rc s /\
       forall w h2 v, c_borrow_mut s h1 = (Ok w, h2) ->
         exists r h3, c_borrow s2 (c_drop_refmut w (c_assign w v h2)) = (Ok r, h3) /\
                      c_deref (ref_ptr r) h3 = Some v) /\
  (forall (h : uheap T) s sl, u_slots h !! rc s = Some sl ->
     exists s2 h1, u_clone s h = (Ok s2, h1) /\ rc s2 = rc s /\
       forall w h2 v, u_borrow_mut s h1 = (Ok w, h2) ->
         exists r h3, u_borrow s2 (u_assign w v h2) = (Ok r, h3) /\
                      u_deref (uref_ptr r) h3 = Some v) /\
  (forall t v : T, fst (c_clone_write_read t v c_empty) = Ok v /\
                   fst (u_clone_write_read t v u_empty) = Ok v) /\
  fst (c_clone_write_read 5 7 c_empty) = Ok 7 /\
  fst (u_clone_write_read 5 7 u_empty) = Ok 7.
Proof.
  split; [|split; [|split]].
  - intros h [p] sl Es. unfold c_clone; simpl in *. rewrite Es.
    do 2 eexists. split; [reflexivity|]. split; [reflexivity|].
    intros w h2 v Hb. unfold c_borrow_mut in Hb; simpl in Hb.
    rewrite lookup_insert_eq in Hb; simpl in Hb.
    destruct (c_flag sl) eqn:Ef; simpl in Hb; inversion Hb; subst; clear Hb.
    unfold c_assign, c_drop_refmut, c_borrow, c_deref, c_update; simpl.
    rewrite !lookup_insert_eq; simpl. rewrite !lookup_insert_eq; simpl.
    rewrite !lookup_insert_eq; simpl. do 2 eexists. split; [reflexivity|].
    simpl. rewrite lookup_insert_eq. reflexivity.
  - intros h [p] sl Es. unfold u_clone; simpl in *. rewrite Es.
    do 2 eexists. split; [reflexivity|]. split; [reflexivity|].
    intros w h2 v Hb. unfold u_borrow_mut in Hb. inversion Hb; subst; clear Hb.
    unfold u_assign, u_borrow, u_deref, u_update; simpl.
    rewrite lookup_insert_eq; simpl. do 2 eexists. split; [reflexivity|].
    simpl. rewrite lookup_insert_eq. reflexivity.
  - intros t v. split; reflexivity.
  - split; reflexivity.
Qed.

Lemma C6_witness :
  (exists s2 h1, c_clone (SCellC 0) h5 = (Ok s2, h1) /\ rc s2 = 0) /\
  (exists s2 h1, u_clone (SCellC 0) (snd (u_new 5 u_empty)) = (Ok s2, h1) /\ rc s2 = 0).
Proof.
  destruct (C6_clone_shares_slot (T:=nat)) as (P1 & P2 & _). split.
  - destruct (P1 h5 (SCellC 0) (CSlot 5 Unborrowed 1) ltac:(reflexivity))
      as (s2 & h1 & E & R & _).
    exists s2, h1. split; [exact E | exact R].
  - destruct (P2 (snd (u_new 5 u_empty)) (SCellC 0) (USlot 5 1) ltac:(reflexivity))
      as (s2 & h1 & E & R & _).
    exists s2, h1. split; [exact E | exact R].
Defined.

(** The result of a forwarded comparison on two distinct slots. *)
Lemma c_forward2_distinct {T A} (same : A) (op : T -> T -> A) (h : cheap T) s o sls slo :
  c_slots h !! rc s = Some sls -> c_slots h !! rc o = Some slo -> rc s <> rc o ->
  fst (c_forward2 same op s o h) = read_pair (c_flag sls) (c_flag slo) (op (c_value sls) (c_value slo)).
Proof.
  intros Es Eo Hne. unfold c_forward2, same_ptr, read_pair.
  destruct (Nat.eqb_spec (rc s) (rc o)) as [|_]; [congruence|].
  unfold with_ref at 1, bind at 1, c_borrow at 1. rewrite Es.
  destruct (acquire_read (c_flag sls)) as [fs|] eqn:Fs; [|reflexivity].
  unfold c_deref at 1; cbn [ref_ptr c_slots c_update]. rewrite lookup_insert_eq. cbn [fmap option_fmap option_map].
  unfold with_ref, bind, c_borrow; cbn [c_slots c_update]. rewrite lookup_insert_ne by congruence.
  rewrite Eo. destruct (acquire_read (c_flag slo)) as [fo|] eqn:Fo; [|reflexivity].
  unfold c_deref; cbn [ref_ptr c_slots c_update]. rewrite lookup_insert_eq. reflexivity.
Qed.

Lemma c_forward2_pair {T A} (same : A) (op : T -> T -> A) (h : cheap T) s o :
  c_forward2 same op s o h = (fst (c_forward2 same op s o h), h).
Proof.
  rewrite <- (c_forward2_heap same op s o h) at 3. apply surjective_pairing.
Qed.

(** C9: In the checked variant a comparison ([==] or [partial_cmp]) of
    handles to distinct slots takes read views on both, so it panics when a
    write view is held on either slot, and compares the two values when
    both read views are granted (neither slot mutably borrowed nor at
    [isize::MAX] readers); either way the heap is left as it was.  On
    two handles to the same slot it takes no view and returns equal, also
    while a write view is held on that slot. *)
Theorem C9_checked_compare_borrows {T} `{PartialEq T} `{PartialOrd T}
  (h : cheap T) s o sls slo :
  c_slots h !! rc s = Some sls -> c_slots h !! rc o = Some slo ->
  (rc s <> rc o ->
     ((c_flag sls = Exclusive \/ c_flag slo = Exclusive) ->
        c_eq s o h = (Err AlreadyMutablyBorrowed, h) /\
        c_partial_cmp s o h = (Err AlreadyMutablyBorrowed, h)) /\
     (acquire_read (c_flag sls) <> None -> acquire_read (c_flag slo) <> None ->
        c_eq s o h = (Ok (eq (c_value sls) (c_value slo)), h) /\
        c_partial_cmp s o h = (Ok (partial_cmp (c_value sls) (c_value slo)), h))) /\
  (rc s = rc o ->
     c_eq s o h = (Ok true, h) /\ c_partial_cmp s o h = (Ok (Some Eq), h)).
Proof.
  intros Es Eo. split.
  - intros Hne. unfold c_eq, c_partial_cmp.
    rewrite (c_forward2_pair true), (c_forward2_pair (Some Eq)).
    rewrite !(c_forward2_distinct _ _ h s o sls slo Es Eo Hne).
    split.
    + unfold read_pair. intros [F|F]; rewrite F; [split; reflexivity|].
      destruct (acquire_read (c_flag sls)); split; reflexivity.
    + intros F1 F2. unfold read_pair.
      destruct (acquire_read (c_flag sls)); [|congruence].
      destruct (acquire_read (c_flag slo)); [|congruence]. split; reflexivity.
  - intros Heq. unfold c_eq, c_partial_cmp, c_forward2, same_ptr.
    rewrite Heq, Nat.eqb_refl. split; reflexivity.
Qed.

(** Two cells (5 at 0, 6 at 1) with a write view held on the first. *)
Definition h56_write : cheap nat :=
  snd (c_borrow_mut (SCellC 0) (snd (c_new 6 h5))).

(** The same two cells with [isize::MAX] read guards outstanding on the
    first (the flag [leak_reads] reaches). *)
Definition h56_max : cheap nat :=
  c_update 0 (CSlot 5 (SharedRead isize_max) 1) (snd (c_new 6 h5)).

Lemma C9_witness :
  c_eq (SCellC 0) (SCellC 1) h56_write = (Err AlreadyMutablyBorrowed, h56_write) /\
  c_eq (SCellC 0) (SCellC 0) h56_write = (Ok true, h56_write) /\
  c_eq (SCellC 1) (SCellC 1) (snd (c_new 6 h5)) = (Ok true, snd (c_new 6 h5)).
Proof.
  split; [|split].
  - destruct (C9_checked_compare_borrows h56_write (SCellC 0) (SCellC 1)
                (CSlot 5 Exclusive 1) (CSlot 6 Unborrowed 1)
                ltac:(reflexivity) ltac:(reflexivity)) as [P _].
    apply (proj1 (P ltac:(simpl; lia)) ltac:(left; reflexivity)).
  - destruct (C9_checked_compare_borrows h56_write (SCellC 0) (SCellC 0)
                (CSlot 5 Exclusive 1) (CSlot 5 Exclusive 1)
                ltac:(reflexivity) ltac:(reflexivity)) as [_ P].
    apply (proj1 (P ltac:(reflexivity))).
  - destruct (C9_checked_compare_borrows (snd (c_new 6 h5)) (SCellC 1) (SCellC 1)
                (CSlot 6 Unborrowed 1) (CSlot 6 Unborrowed 1)
                ltac:(reflexivity) ltac:(reflexivity)) as [_ P].
    apply (proj1 (P ltac:(reflexivity))).
Defined.

(** C1: The checked comparisons short-circuit on two handles to the same
    slot for every contained type and every heap (also while a write view
    is held): [==] is true, [partial_cmp] is [Some Equal], nothing is
    borrowed.  The unchecked ones do not: they read both values and
    forward to [T], so on a cell holding NaN and its clone [==] is false
    and [partial_cmp] is [None]. *)
Theorem C1_same_slot_short_circuit :
  (forall T `{PartialEq T} `{PartialOrd T} (h : cheap T) s,
     c_eq s s h = (Ok true, h) /\ c_partial_cmp s s h = (Ok (Some Eq), h)) /\
  c_on_clones NaN c_eq = Ok true /\
  c_on_clones NaN c_partial_cmp = Ok (Some Eq) /\
  u_on_clones NaN u_eq = Ok false /\
  u_on_clones NaN u_partial_cmp = Ok None.
Proof.
  split; [|repeat split; reflexivity].
  intros T ? ? h s. unfold c_eq, c_partial_cmp, c_forward2, same_ptr.
  rewrite Nat.eqb_refl. split; reflexivity.
Qed.

(** C2: The two variants are not observationally equivalent on a program
    that holds no view at any comparison: wrap NaN, clone the handle and
    compare the two handles. *)
Theorem C2_variants_diverge :
  c_on_clones NaN c_eq = Ok true /\ u_on_clones NaN u_eq = Ok false /\
  c_on_clones NaN c_ne = Ok false /\ u_on_clones NaN u_ne = Ok true /\
  c_on_clones NaN c_le = Ok true /\ u_on_clones NaN u_le = Ok false /\
  c_on_clones NaN c_partial_cmp = Ok (Some Eq) /\ u_on_clones NaN u_partial_cmp = Ok None.
Proof. repeat split; reflexivity. Qed.

(** ** The items each variant declares for [SCell] and its views *)
Inductive Item :=
| New | Borrow | BorrowMut
| DefaultImpl | CloneImpl | FromImpl
| PartialEqImpl | EqImpl | PartialOrdImpl | OrdImpl
| HashImpl | DisplayImpl | DebugImpl | PointerImpl
| RefDeref | RefDebug | RefMutDeref | RefMutDerefMut | RefMutDebug.

(** An item and whether code outside the module can use it: an inherent
    [fn] only when declared [pub]; an impl of a public trait for the
    public type always. *)
Record decl := Decl { d_item : Item; d_pub : bool }.

(** [src/src/checked.rs], plus the crate root's impls of [Hash], [Display],
    [Debug] and [From] ([src/src/lib.rs]). *)
Definition checked_decls : list decl := [
  Decl DefaultImpl true;   (* #[derive(Default)] pub struct SCell *)
  Decl New true;           (* pub fn new *)
  Decl Borrow true;        (* pub fn borrow *)
  Decl BorrowMut true;     (* pub fn borrow_mut *)
  Decl CloneImpl true; Decl PointerImpl true;
  Decl RefDeref true; Decl RefDebug true;
  Decl PartialEqImpl true; Decl EqImpl true; Decl PartialOrdImpl true; Decl OrdImpl true;
  Decl RefMutDeref true; Decl RefMutDerefMut true; Decl RefMutDebug true;
  Decl HashImpl true; Decl DisplayImpl true; Decl DebugImpl true; Decl FromImpl true ].

(** [src/src/unchecked.rs] *)
Definition unchecked_decls : list decl := [
  Decl DefaultImpl true;   (* #[derive(Default)] pub struct SCell *)
  Decl New false;          (* fn new *)
  Decl Borrow false;       (* fn borrow *)
  Decl BorrowMut false;    (* fn borrow_mut *)
  Decl CloneImpl true;
  Decl PartialEqImpl true; Decl EqImpl true; Decl PartialOrdImpl true; Decl OrdImpl true;
  Decl HashImpl true; Decl DisplayImpl true; Decl DebugImpl true; Decl PointerImpl true;
  Decl FromImpl true;
  Decl RefDeref true; Decl RefDebug true;
  Decl RefMutDeref true; Decl RefMutDerefMut true; Decl RefMutDebug true ].

Definition exported (ds : list decl) : list Item := map d_item (List.filter d_pub ds).

(** Items that create a new slot. *)
Definition constructs (i : Item) : bool :=
  match i with New | DefaultImpl | FromImpl => true | _ => false end.

(** Items that hand out a read or a write view. *)
Definition view_accessor (i : Item) : bool :=
  match i with Borrow | BorrowMut => true | _ => false end.

Definition public_constructors (ds : list decl) : list Item :=
  List.filter constructs (exported ds).

(** [#[derive(Default)]]: [SCell(Rc::default())], a new slot holding
    [T::default()]. *)
Definition u_default {T} (default : T) : M (uheap T) SCell := u_new default.

(** C10 (as stated): the unchecked build constructs cells only through
    [From<T>].  Refuted: the derived [Default] is public too. *)
Lemma C10_counterexample :
  ~ (forall i, In i (public_constructors unchecked_decls) -> i = FromImpl).
Proof. intros Honly. discriminate (Honly DefaultImpl (or_introl eq_refl)). Qed.

(** C10 (amended): in the unchecked build [new], [borrow] and [borrow_mut]
    are private, so its public ways to create a cell are the derived
    [Default] and [From<T>], and it hands out no read or write view, while
    the checked build exports [new], [borrow] and [borrow_mut]; the two
    builds export different items.  The derived [Default] creates a fresh
    slot holding the default value. *)
Theorem C10_unchecked_interface :
  public_constructors unchecked_decls = [DefaultImpl; FromImpl] /\
  List.filter view_accessor (exported unchecked_decls) = [] /\
  public_constructors checked_decls = [DefaultImpl; New; FromImpl] /\
  List.filter view_accessor (exported checked_decls) = [Borrow; BorrowMut] /\
  exported checked_decls <> exported unchecked_decls /\
  (forall T (d : T) (h : uheap T),
     u_default d h = (Ok (SCellC (u_next h)),
                      UHeap (<[u_next h := USlot d 1]> (u_slots h)) (S (u_next h)))).
Proof.
  repeat split; try reflexivity.
  vm_compute. discriminate.
Qed.

(** * Further properties of the code *)

Lemma c_forward2_distinct_read_pair {T A} (same : A) (op : T -> T -> A) (h : cheap T) s o sls slo :
  c_slots h !! rc s = Some sls -> c_slots h !! rc o = Some slo -> rc s <> rc o ->
  c_forward2 same op s o h = (read_pair (c_flag sls) (c_flag slo) (op (c_value sls) (c_value slo)), h).
Proof.
  intros Es Eo Hne. rewrite c_forward2_pair.
  rewrite (c_forward2_distinct same op h s o sls slo Es Eo Hne). reflexivity.
Qed.

Lemma c_forward2_same {T A} (same : A) (op : T -> T -> A) (h : cheap T) s o :
  rc s = rc o -> c_forward2 same op s o h = (Ok same, h).
Proof. intros E. unfold c_forward2, same_ptr. rewrite E, Nat.eqb_refl. reflexivity. Qed.

(** X2: Every checked comparison leaves the heap exactly as it found it,
    whether it returns or panics: the read guards it takes are dropped. *)
Theorem X2_checked_compare_no_effect {T} `{PartialEq T} `{PartialOrd T} `{Ord T}
  (h : cheap T) s o :
  snd (c_eq s o h) = h /\ snd (c_ne s o h) = h /\ snd (c_partial_cmp s o h) = h /\
  snd (c_lt s o h) = h /\ snd (c_le s o h) = h /\ snd (c_gt s o h) = h /\
  snd (c_ge s o h) = h /\ snd (c_cmp s o h) = h.
Proof. repeat split; apply c_forward2_heap. Qed.

(** X3: On handles to distinct slots the checked [ne], [lt], [le], [gt],
    [ge] and [cmp] panic when a read view is refused on either slot (a
    write view is held, or [isize::MAX] read views) and otherwise return
    [T]'s operation on the two values; the heap is left as it was. *)
Theorem X3_checked_distinct_ord {T} `{PartialEq T} `{PartialOrd T} `{Ord T}
  (h : cheap T) s o sls slo :
  c_slots h !! rc s = Some sls -> c_slots h !! rc o = Some slo -> rc s <> rc o ->
  let rp {A} (x : A) := (read_pair (c_flag sls) (c_flag slo) x, h) in
  c_ne s o h = rp (ne (c_value sls) (c_value slo)) /\
  c_lt s o h = rp (lt (c_value sls) (c_value slo)) /\
  c_le s o h = rp (le (c_value sls) (c_value slo)) /\
  c_gt s o h = rp (gt (c_value sls) (c_value slo)) /\
  c_ge s o h = rp (ge (c_value sls) (c_value slo)) /\
  c_cmp s o h = rp (cmp (c_value sls) (c_value slo)).
Proof.
  intros Es Eo Hne rp. unfold rp, c_ne, c_lt, c_le, c_gt, c_ge, c_cmp.
  rewrite !(c_forward2_distinct_read_pair _ _ h s o sls slo Es Eo Hne). repeat split.
Qed.

Lemma X3_witness :
  c_lt (SCellC 0) (SCellC 1) (snd (c_new 6 h5)) = (Ok true, snd (c_new 6 h5)) /\
  c_cmp (SCellC 1) (SCellC 0) h56_write = (Err AlreadyMutablyBorrowed, h56_write) /\
  c_lt (SCellC 0) (SCellC 1) h56_max = (Err AlreadyMutablyBorrowed, h56_max).
Proof.
  split; [|split].
  - apply (X3_checked_distinct_ord (snd (c_new 6 h5)) (SCellC 0) (SCellC 1)
             (CSlot 5 Unborrowed 1) (CSlot 6 Unborrowed 1) eq_refl eq_refl ltac:(simpl; lia)).
  - apply (X3_checked_distinct_ord h56_write (SCellC 1) (SCellC 0)
             (CSlot 6 Unborrowed 1) (CSlot 5 Exclusive 1) eq_refl eq_refl ltac:(simpl; lia)).
  - apply (X3_checked_distinct_ord h56_max (SCellC 0) (SCellC 1)
             (CSlot 5 (SharedRead isize_max) 1) (CSlot 6 Unborrowed 1) eq_refl eq_refl ltac:(simpl; lia)).
Defined.

Lemma erase_update {T} p (sl : cslot T) h :
  erase (c_update p sl h) = u_update p (erase_slot sl) (erase h).
Proof. unfold erase, c_update, u_update; simpl. by rewrite fmap_insert. Qed.

Lemma erase_lookup {T} (h : cheap T) p : u_slots (erase h) !! p = erase_slot <$> c_slots h !! p.
Proof. unfold erase; simpl. apply lookup_fmap. Qed.

Lemma erase_with_flag {T} p (sl : cslot T) f h :
  c_slots h !! p = Some sl -> erase (c_update p (with_flag sl f) h) = erase h.
Proof.
  intros Es. rewrite erase_update. destruct (erase h) as [m n] eqn:Eh.
  unfold u_update; simpl. f_equal. apply insert_id.
  change m with (u_slots (UHeap m n)). rewrite <- Eh, erase_lookup, Es. reflexivity.
Qed.

Lemma erase_release {T} p (rel : BorrowState -> BorrowState) (h : cheap T) :
  erase (match c_slots h !! p with
         | Some sl => c_update p (with_flag sl (rel (c_flag sl))) h
         | None => h
         end) = erase h.
Proof.
  destruct (c_slots h !! p) as [sl|] eqn:Es; [|reflexivity]. exact (erase_with_flag p sl _ h Es).
Qed.

(** X4: Leaving out the borrow flags maps the checked variant onto the
    unchecked one: [new], [clone] and writes through a write view do the
    same on the erased heap, a granted [borrow]/[borrow_mut] is the
    unchecked one on the same slot, dropping a view changes nothing but
    flags, and a view reads the same value. *)
Theorem X4_erase_simulates {T} :
  (forall (t : T) h,
     fst (c_new t h) = fst (u_new t (erase h)) /\ erase (snd (c_new t h)) = snd (u_new t (erase h))) /\
  (forall s (h : cheap T),
     fst (c_clone s h) = fst (u_clone s (erase h)) /\ erase (snd (c_clone s h)) = snd (u_clone s (erase h))) /\
  (forall s (h h' : cheap T) r, c_borrow s h = (Ok r, h') ->
     u_borrow s (erase h) = (Ok (URefC (ref_ptr r)), erase h')) /\
  (forall s (h h' : cheap T) r, c_borrow_mut s h = (Ok r, h') ->
     u_borrow_mut s (erase h) = (Ok (URefMutC (refmut_ptr r)), erase h')) /\
  (forall p (v : T) h, erase (c_assign (RefMutC p) v h) = u_assign (URefMutC p) v (erase h)) /\
  (forall p (h : cheap T), erase (c_drop_ref (RefC p) h) = erase h /\
                           erase (c_drop_refmut (RefMutC p) h) = erase h) /\
  (forall p (h : cheap T), c_deref p h = u_deref p (erase h)).
Proof.
  split; [|split; [|split; [|split; [|split; [|split]]]]].
  - intros t h. unfold c_new, u_new, erase; simpl. split; [reflexivity|]. by rewrite fmap_insert.
  - intros s h. unfold c_clone, u_clone. rewrite erase_lookup.
    destruct (c_slots h !! rc s) as [sl|]; simpl; [|split; reflexivity].
    split; [reflexivity|]. rewrite erase_update. reflexivity.
  - intros s h h' r E. unfold c_borrow in E.
    destruct (c_slots h !! rc s) as [sl|] eqn:Es; [|discriminate].
    destruct (acquire_read (c_flag sl)) as [f|]; inversion E; subst; simpl.
    unfold u_borrow. rewrite (erase_with_flag _ sl f h Es). reflexivity.
  - intros s h h' r E. unfold c_borrow_mut in E.
    destruct (c_slots h !! rc s) as [sl|] eqn:Es; [|discriminate].
    destruct (acquire_write (c_flag sl)) as [f|]; inversion E; subst; simpl.
    unfold u_borrow_mut. rewrite (erase_with_flag _ sl f h Es). reflexivity.
  - intros p v h. unfold c_assign, u_assign; simpl. rewrite lookup_fmap.
    destruct (c_slots h !! p) as [sl|]; simpl; [|reflexivity]. rewrite erase_update. reflexivity.
  - intros p h. split; [apply (erase_release p release_read) | apply (erase_release p release_write)].
  - intros p h. unfold c_deref, u_deref. rewrite erase_lookup.
    destruct (c_slots h !! p); reflexivity.
Qed.

Lemma X4_witness :
  u_borrow (SCellC 0) (erase h5) = (Ok (URefC 0), erase (cf_heap cfg_read)) /\
  u_borrow_mut (SCellC 0) (erase h5) = (Ok (URefMutC 0), erase (cf_heap cfg_write)).
Proof.
  destruct (X4_erase_simulates (T:=nat)) as (_ & _ & P3 & P4 & _). split.
  - apply (P3 (SCellC 0) h5 (cf_heap cfg_read) (RefC 0)). reflexivity.
  - apply (P4 (SCellC 0) h5 (cf_heap cfg_write) (RefMutC 0)). reflexivity.
Defined.

Lemma u_forward2_live {T A} (op : T -> T -> A) (h : uheap T) s o sls slo :
  u_slots h !! rc s = Some sls -> u_slots h !! rc o = Some slo ->
  u_forward2 op s o h = (Ok (op (u_value sls) (u_value slo)), h).
Proof.
  intros Es Eo. unfold u_forward2, u_with_ref, bind, u_borrow, u_deref; simpl.
  rewrite Es; simpl. rewrite Eo. reflexivity.
Qed.

(** X6: When a read view is granted on both slots (no write view held, and
    fewer than [isize::MAX] read views), a checked comparison gives the
    unchecked comparison's answer on the erased heap for distinct slots,
    and for one slot exactly when [T]'s operation on the value with itself
    gives the short-circuit answer. *)
Theorem X6_checked_refines_unchecked {T A} (same : A) (op : T -> T -> A) (h : cheap T) s o sls slo :
  c_slots h !! rc s = Some sls -> c_slots h !! rc o = Some slo ->
  acquire_read (c_flag sls) <> None -> acquire_read (c_flag slo) <> None ->
  (rc s <> rc o -> c_forward2 same op s o h = (fst (u_forward2 op s o (erase h)), h)) /\
  (rc s = rc o ->
     (c_forward2 same op s o h = (fst (u_forward2 op s o (erase h)), h) <->
      op (c_value sls) (c_value sls) = same)).
Proof.
  intros Es Eo Fs Fo.
  assert (Us : u_slots (erase h) !! rc s = Some (erase_slot sls)) by (rewrite erase_lookup, Es; reflexivity).
  assert (Uo : u_slots (erase h) !! rc o = Some (erase_slot slo)) by (rewrite erase_lookup, Eo; reflexivity).
  rewrite (u_forward2_live op _ s o _ _ Us Uo). simpl. split.
  - intros Hne. rewrite (c_forward2_distinct_read_pair same op h s o sls slo Es Eo Hne).
    unfold read_pair. destruct (acquire_read (c_flag sls)); [|congruence].
    destruct (acquire_read (c_flag slo)); [reflexivity | congruence].
  - intros Heq. rewrite (c_forward2_same same op h s o Heq).
    rewrite Heq in Es. rewrite Es in Eo. inversion Eo; subst.
    split; [intros E; inversion E; reflexivity | intros ->; reflexivity].
Qed.

Lemma X6_witness :
  c_eq (SCellC 0) (SCellC 1) (snd (c_new 6 h5))
    = (fst (u_eq (SCellC 0) (SCellC 1) (erase (snd (c_new 6 h5)))), snd (c_new 6 h5)).
Proof.
  refine (proj1 (X6_checked_refines_unchecked true eq (snd (c_new 6 h5)) (SCellC 0) (SCellC 1)
           (CSlot 5 Unborrowed 1) (CSlot 6 Unborrowed 1) eq_refl eq_refl _ _) _).
  - simpl. discriminate.
  - simpl. discriminate.
  - simpl. lia.
Defined.

Lemma with_ref_ret {T A} (f : T -> A) (h : cheap T) s sl :
  c_slots h !! rc s = Some sl ->
  with_ref s (fun v => ret (f v)) h = (read_one (c_flag sl) (f (c_value sl)), h).
Proof.
  intros Es.
  pose proof (with_ref_heap s (fun v => ret (f v)) h (fun _ _ => eq_refl)) as Hh.
  destruct (with_ref s (fun v => ret (f v)) h) as [r h'] eqn:E. simpl in Hh. subst h'.
  f_equal. revert E. unfold with_ref, bind, c_borrow, read_one. rewrite Es.
  destruct (acquire_read (c_flag sl)) as [fl|]; intros E; [|inversion E; reflexivity].
  revert E; unfold c_deref; cbn [ref_ptr c_slots c_update]. rewrite lookup_insert_eq.
  intros E; inversion E; reflexivity.
Qed.

(** X7: The checked [Hash], [Display] and [Debug] forwarding (crate root)
    reads the value through a read view: it panics when the read view is
    refused (a write view is held on the slot, or [isize::MAX] read views),
    otherwise it writes exactly what [T]'s impl writes, and it leaves the
    heap unchanged. *)
Theorem X7_checked_hash_fmt {T} `{Hash T} `{Display T} `{Debug T} (h : cheap T) s sl st :
  c_slots h !! rc s = Some sl ->
  c_hash s st h = (read_one (c_flag sl) (hash (c_value sl) st), h) /\
  c_display s h = (read_one (c_flag sl) (fmt_display (c_value sl)), h) /\
  c_debug s h = (read_one (c_flag sl) (fmt_debug (c_value sl)), h).
Proof.
  intros Es. unfold c_hash, c_display, c_debug.
  rewrite !(with_ref_ret _ h s sl Es). repeat split.
Qed.

Lemma X7_witness :
  c_hash (SCellC 0) [] h56_write = (Err AlreadyMutablyBorrowed, h56_write) /\
  c_hash (SCellC 1) [] h56_write = (Ok [6], h56_write) /\
  c_hash (SCellC 0) [] h56_max = (Err AlreadyMutablyBorrowed, h56_max).
Proof.
  split; [|split].
  - exact (proj1 (X7_checked_hash_fmt h56_write (SCellC 0) (CSlot 5 Exclusive 1) [] eq_refl)).
  - exact (proj1 (X7_checked_hash_fmt h56_write (SCellC 1) (CSlot 6 Unborrowed 1) [] eq_refl)).
  - exact (proj1 (X7_checked_hash_fmt h56_max (SCellC 0) (CSlot 5 (SharedRead isize_max) 1) [] eq_refl)).
Defined.

(** X9: In every reachable checked program state, each slot has at most
    one write view held, and never a write view together with a read view. *)
Theorem X9_checked_aliasing_discipline {T} (c : cfg T) p :
  creach c ->
  nwrites p (cf_views c) <= 1 /\ (0 < nwrites p (cf_views c) -> nreads p (cf_views c) = 0).
Proof.
  intros Hr. destruct (creach_inv c Hr) as (I1 & I2 & _).
  destruct (c_slots (cf_heap c) !! p) as [sl|] eqn:Es.
  - pose proof (I1 _ _ Es) as F. destruct (c_flag sl); simpl in F; lia.
  - destruct (I2 _ Es). lia.
Qed.

Lemma X9_witness : nwrites 0 (cf_views cfg_write) <= 1.
Proof. exact (proj1 (X9_checked_aliasing_discipline cfg_write 0 cfg_write_reach)). Defined.

Lemma with_ref_unfold {T A} s (body : T -> M (cheap T) A) (h : cheap T) sl f :
  c_slots h !! rc s = Some sl -> acquire_read (c_flag sl) = Some f ->
  with_ref s body h =
    (fst (body (c_value sl) (c_update (rc s) (with_flag sl f) h)),
     c_drop_ref (RefC (rc s)) (snd (body (c_value sl) (c_update (rc s) (with_flag sl f) h)))).
Proof.
  intros Es Ef. unfold with_ref, bind, c_borrow. rewrite Es, Ef. simpl.
  unfold c_deref; simpl. rewrite lookup_insert_eq; simpl.
  destruct (body _ _); reflexivity.
Qed.

Lemma with_ref_fail {T A} s (body : T -> M (cheap T) A) (h : cheap T) sl :
  c_slots h !! rc s = Some sl -> c_flag sl = Exclusive ->
  with_ref s body h = (Err AlreadyMutablyBorrowed, h).
Proof. intros Es F. unfold with_ref, bind, c_borrow. rewrite Es, F. reflexivity. Qed.

Lemma with_ref_mut_unfold {T A} s g (body : M (cheap T) A) (h : cheap T) sl :
  c_slots h !! rc s = Some sl -> c_flag sl = Unborrowed ->
  let h1 := c_update (rc s) (CSlot (g (c_value sl)) Exclusive (c_strong sl)) h in
  with_ref_mut s g body h = (fst (body h1), c_drop_refmut (RefMutC (rc s)) (snd (body h1))).
Proof.
  intros Es F h1. unfold with_ref_mut, bind, c_borrow_mut. rewrite Es, F. simpl.
  unfold c_deref; simpl. rewrite lookup_insert_eq; simpl.
  unfold c_assign; simpl. rewrite lookup_insert_eq; simpl.
  rewrite c_update_twice. fold h1. destruct (body h1); reflexivity.
Qed.

Lemma with_ref_mut_fail {T A} s g (body : M (cheap T) A) (h : cheap T) sl :
  c_slots h !! rc s = Some sl -> c_flag sl <> Unborrowed ->
  with_ref_mut s g body h = (Err AlreadyBorrowed, h).
Proof.
  intros Es F. unfold with_ref_mut, bind, c_borrow_mut. rewrite Es.
  destruct (c_flag sl); [congruence | reflexivity | reflexivity].
Qed.

Lemma drop_ref_restore {T} p (h : cheap T) sl f :
  c_slots h !! p = Some sl -> acquire_read (c_flag sl) = Some f ->
  c_drop_ref (RefC p) (c_update p (with_flag sl f) h) = h.
Proof.
  intros Es Ef. unfold c_drop_ref; simpl. rewrite lookup_insert_eq; simpl.
  rewrite (release_acquire_read _ _ Ef).
  change (c_update p (with_flag (with_flag sl f) (c_flag sl)) (c_update p (with_flag sl f) h) = h).
  rewrite c_update_twice. apply c_update_id. rewrite Es. destruct sl; reflexivity.
Qed.

Lemma drop_refmut_after {T} p (h : cheap T) v st :
  c_drop_refmut (RefMutC p) (c_update p (CSlot v Exclusive st) h) = c_update p (CSlot v Unborrowed st) h.
Proof.
  unfold c_drop_refmut; simpl. rewrite lookup_insert_eq; simpl. apply c_update_twice.
Qed.

Lemma c_update_lookup {T} p (sl : cslot T) h : c_slots (c_update p sl h) !! p = Some sl.
Proof. apply lookup_insert_eq. Qed.

Lemma with_ref_refused {T A} s (body : T -> M (cheap T) A) (h : cheap T) sl :
  c_slots h !! rc s = Some sl -> acquire_read (c_flag sl) = None ->
  with_ref s body h = (Err AlreadyMutablyBorrowed, h).
Proof. intros Es F. unfold with_ref, bind, c_borrow. rewrite Es, F. reflexivity. Qed.

Lemma acquire_read_shared f f' : acquire_read f = Some f' -> exists n, f' = SharedRead n.
Proof.
  destruct f as [|n|]; unfold acquire_read; [| destruct (n <? isize_max)%positive |];
    intros E; inversion E; eauto.
Qed.

(** X10: Views nest in the checked variant as [RefCell] allows.  Inside a
    read scope on a slot (the outer read granted), a read scope on the same
    slot through any handle to it is granted when the count allows one more
    reader and then sees the same value, and the heap comes back unchanged;
    when the outer read brought the count to [isize::MAX] the inner read
    panics and unwinding restores the heap.  A write scope there panics with
    "already borrowed", and unwinding drops the outer guard so the heap
    comes back unchanged.  Inside a write scope on a free slot any further
    view of the same slot panics, and after unwinding the value written
    before the panic stays and the slot is free again. *)
Theorem X10_checked_nested_views {T A} (h : cheap T) s o sl f (g g' : T -> T) (body : M (cheap T) A) :
  c_slots h !! rc s = Some sl -> rc o = rc s ->
  (acquire_read (c_flag sl) = Some f ->
     (acquire_read f <> None ->
        with_ref s (fun a => with_ref o (fun b => ret (a, b))) h = (Ok (c_value sl, c_value sl), h)) /\
     (acquire_read f = None ->
        with_ref s (fun a => with_ref o (fun b => ret (a, b))) h = (Err AlreadyMutablyBorrowed, h)) /\
     with_ref s (fun _ => with_ref_mut o g body) h = (Err AlreadyBorrowed, h)) /\
  (c_flag sl = Unborrowed ->
     with_ref_mut s g (with_ref o (fun b => ret b)) h
       = (Err AlreadyMutablyBorrowed,
          c_update (rc s) (CSlot (g (c_value sl)) Unborrowed (c_strong sl)) h) /\
     with_ref_mut s g (with_ref_mut o g' body) h
       = (Err AlreadyBorrowed,
          c_update (rc s) (CSlot (g (c_value sl)) Unborrowed (c_strong sl)) h)).
Proof.
  intros Es Ho. split.
  - intros Ef.
    set (h1 := c_update (rc s) (with_flag sl f) h).
    assert (E1 : c_slots h1 !! rc o = Some (with_flag sl f)) by (rewrite Ho; apply c_update_lookup).
    split; [|split].
    + intros Hf2. rewrite (with_ref_unfold s _ h sl f Es Ef). fold h1.
      destruct (acquire_read f) as [f2|] eqn:Ef2; [|congruence].
      rewrite (with_ref_unfold o _ h1 (with_flag sl f) f2 E1 Ef2). simpl.
      rewrite (drop_ref_restore (rc o) h1 (with_flag sl f) f2 E1 Ef2).
      unfold h1. rewrite (drop_ref_restore (rc s) h sl f Es Ef). reflexivity.
    + intros Hf2. rewrite (with_ref_unfold s _ h sl f Es Ef). fold h1.
      rewrite (with_ref_refused o _ h1 (with_flag sl f) E1 Hf2). simpl.
      unfold h1. rewrite (drop_ref_restore (rc s) h sl f Es Ef). reflexivity.
    + rewrite (with_ref_unfold s _ h sl f Es Ef). fold h1.
      assert (Fu : c_flag (with_flag sl f) <> Unborrowed)
        by (destruct (acquire_read_shared _ _ Ef) as [n ->]; discriminate).
      rewrite (with_ref_mut_fail o g body h1 (with_flag sl f) E1 Fu). simpl.
      unfold h1. rewrite (drop_ref_restore (rc s) h sl f Es Ef). reflexivity.
  - intros Fu.
    set (h1 := c_update (rc s) (CSlot (g (c_value sl)) Exclusive (c_strong sl)) h).
    assert (E1 : c_slots h1 !! rc o = Some (CSlot (g (c_value sl)) Exclusive (c_strong sl)))
      by (rewrite Ho; apply c_update_lookup).
    split.
    + rewrite (with_ref_mut_unfold s g _ h sl Es Fu). fold h1.
      rewrite (with_ref_refused o _ h1 _ E1 eq_refl). simpl.
      unfold h1. apply f_equal, drop_refmut_after.
    + rewrite (with_ref_mut_unfold s g _ h sl Es Fu). fold h1.
      rewrite (with_ref_mut_fail o g' body h1 _ E1 ltac:(discriminate)). simpl.
      unfold h1. apply f_equal, drop_refmut_after.
Qed.

(** One cell (5 at 0) with [isize::MAX - 1] read guards outstanding. *)
Definition h5_below_max : cheap nat :=
  c_update 0 (CSlot 5 (SharedRead (Pos.pred isize_max)) 1) h5.

Lemma X10_witness :
  with_ref (SCellC 0) (fun a => with_ref (SCellC 0) (fun b => ret (a, b))) h5 = (Ok (5, 5), h5) /\
  with_ref (SCellC 0) (fun a => with_ref (SCellC 0) (fun b => ret (a, b))) h5_below_max
    = (Err AlreadyMutablyBorrowed, h5_below_max) /\
  with_ref (SCellC 0) (fun _ => with_ref_mut (SCellC 0) S (ret tt)) h5 = (Err AlreadyBorrowed, h5) /\
  with_ref_mut (SCellC 0) S (with_ref (SCellC 0) (fun b => ret b)) h5
    = (Err AlreadyMutablyBorrowed, c_update 0 (CSlot 6 Unborrowed 1) h5).
Proof.
  destruct (X10_checked_nested_views h5 (SCellC 0) (SCellC 0) (CSlot 5 Unborrowed 1) (SharedRead 1)
              S S (ret tt) eq_refl eq_refl) as [P1 P2].
  destruct (X10_checked_nested_views h5_below_max (SCellC 0) (SCellC 0)
              (CSlot 5 (SharedRead (Pos.pred isize_max)) 1) (SharedRead isize_max)
              S S (ret tt) eq_refl eq_refl) as [Q1 _].
  split; [|split; [|split]].
  - exact (proj1 (P1 eq_refl) ltac:(vm_compute; discriminate)).
  - exact (proj1 (proj2 (Q1 ltac:(vm_compute; reflexivity))) ltac:(vm_compute; reflexivity)).
  - exact (proj2 (proj2 (P1 eq_refl))).
  - exact (proj1 (P2 eq_refl)).
Defined.

Lemma u_with_ref_mut_live {T A} s g (body : M (uheap T) A) (h : uheap T) sl :
  u_slots h !! rc s = Some sl ->
  u_with_ref_mut s g body h = body (u_update (rc s) (USlot (g (u_value sl)) (u_strong sl)) h).
Proof.
  intros Es. unfold u_with_ref_mut, bind, u_borrow_mut, u_deref, u_assign. cbn [urefmut_ptr].
  rewrite Es. reflexivity.
Qed.

Lemma u_with_ref_live {T A} s (body : T -> M (uheap T) A) (h : uheap T) sl :
  u_slots h !! rc s = Some sl -> u_with_ref s body h = body (u_value sl) h.
Proof. intros Es. unfold u_with_ref, bind, u_borrow, u_deref; simpl. rewrite Es. reflexivity. Qed.

Lemma c_new2_forward2 {T A} (same : A) (op : T -> T -> A) (x y : T) (h : cheap T) :
  (a <- c_new x ;; b <- c_new y ;; c_forward2 same op a b) h
    = (Ok (op x y), snd (c_new y (snd (c_new x h)))).
Proof.
  unfold bind at 1. simpl. unfold bind. simpl.
  rewrite (c_forward2_distinct_read_pair same op _ (SCellC (c_next h)) (SCellC (S (c_next h)))
             (CSlot x Unborrowed 1) (CSlot y Unborrowed 1)); [reflexivity | | | simpl; lia].
  - simpl. rewrite lookup_insert_ne by lia. apply lookup_insert_eq.
  - simpl. apply lookup_insert_eq.
Qed.

Lemma u_new2_forward2 {T A} (op : T -> T -> A) (x y : T) (h : uheap T) :
  (a <- u_new x ;; b <- u_new y ;; u_forward2 op a b) h
    = (Ok (op x y), snd (u_new y (snd (u_new x h)))).
Proof.
  unfold bind at 1. simpl. unfold bind. simpl.
  rewrite (u_forward2_live op _ (SCellC (u_next h)) (SCellC (S (u_next h)))
             (USlot x 1) (USlot y 1)); [reflexivity | |].
  - simpl. rewrite lookup_insert_ne by lia. apply lookup_insert_eq.
  - simpl. apply lookup_insert_eq.
Qed.

(** X11: A checked write scope on a handle whose slot is free writes the
    updated value, runs its body and frees the slot again, keeping the
    strong count; if the slot holds any view it panics with "already
    borrowed" before writing, and the heap is unchanged. *)
Theorem X11_checked_scoped_write {T A} (h : cheap T) s sl (g : T -> T) (x : A) :
  c_slots h !! rc s = Some sl ->
  (c_flag sl = Unborrowed ->
     with_ref_mut s g (ret x) h
       = (Ok x, c_update (rc s) (CSlot (g (c_value sl)) Unborrowed (c_strong sl)) h)) /\
  (c_flag sl <> Unborrowed -> with_ref_mut s g (ret x) h = (Err AlreadyBorrowed, h)).
Proof.
  intros Es. split.
  - intros Fu. rewrite (with_ref_mut_unfold s g (ret x) h sl Es Fu). simpl.
    rewrite drop_refmut_after. reflexivity.
  - intros Fu. exact (with_ref_mut_fail s g (ret x) h sl Es Fu).
Qed.

Lemma X11_witness :
  with_ref_mut (SCellC 0) S (ret tt) h5 = (Ok tt, c_update 0 (CSlot 6 Unborrowed 1) h5) /\
  with_ref_mut (SCellC 0) S (ret tt) (cf_heap cfg_read) = (Err AlreadyBorrowed, cf_heap cfg_read).
Proof.
  split.
  - exact (proj1 (X11_checked_scoped_write h5 (SCellC 0) (CSlot 5 Unborrowed 1) S tt eq_refl) eq_refl).
  - exact (proj2 (X11_checked_scoped_write (cf_heap cfg_read) (SCellC 0) (CSlot 5 (SharedRead 1) 1) S tt
                   eq_refl) ltac:(discriminate)).
Defined.

(** X12: The aliasing the checked build refuses goes unnoticed in the
    unchecked build.  On a free slot, a write scope nested in a read scope
    of the same slot panics in the checked build ("already borrowed", heap
    unchanged) but runs to the end in the unchecked build on the same
    memory and performs the write; a read scope nested in a write scope
    panics in the checked build ("already mutably borrowed") and returns
    the written value in the unchecked build.  Both builds end with the
    same value in the slot in the second case. *)
Theorem X12_unchecked_misses_aliasing {T A} (h : cheap T) s o sl (g : T -> T) (x : A) :
  c_slots h !! rc s = Some sl -> rc o = rc s -> c_flag sl = Unborrowed ->
  let h' := c_update (rc s) (CSlot (g (c_value sl)) Unborrowed (c_strong sl)) h in
  with_ref s (fun _ => with_ref_mut o g (ret x)) h = (Err AlreadyBorrowed, h) /\
  u_with_ref s (fun _ => u_with_ref_mut o g (ret x)) (erase h) = (Ok x, erase h') /\
  with_ref_mut s g (with_ref o (fun b => ret b)) h = (Err AlreadyMutablyBorrowed, h') /\
  u_with_ref_mut s g (u_with_ref o (fun b => ret b)) (erase h) = (Ok (g (c_value sl)), erase h').
Proof.
  intros Es Ho Fu h'.
  assert (Us : u_slots (erase h) !! rc s = Some (erase_slot sl)) by (rewrite erase_lookup, Es; reflexivity).
  assert (Eh : erase h' = u_update (rc s) (USlot (g (c_value sl)) (c_strong sl)) (erase h))
    by (unfold h'; rewrite erase_update; reflexivity).
  assert (Ef : acquire_read (c_flag sl) = Some (SharedRead 1)) by (rewrite Fu; reflexivity).
  split; [|split; [|split]].
  - set (h1 := c_update (rc s) (with_flag sl (SharedRead 1)) h).
    assert (E1 : c_slots h1 !! rc o = Some (with_flag sl (SharedRead 1)))
      by (rewrite Ho; apply c_update_lookup).
    rewrite (with_ref_unfold s _ h sl _ Es Ef). fold h1.
    rewrite (with_ref_mut_fail o g (ret x) h1 _ E1 ltac:(discriminate)). simpl.
    unfold h1. rewrite (drop_ref_restore (rc s) h sl _ Es Ef). reflexivity.
  - rewrite (u_with_ref_live s _ (erase h) _ Us). cbv beta.
    rewrite (u_with_ref_mut_live o g _ (erase h) (erase_slot sl)) by (rewrite Ho; exact Us).
    rewrite Eh, Ho. reflexivity.
  - set (h1 := c_update (rc s) (CSlot (g (c_value sl)) Exclusive (c_strong sl)) h).
    assert (E1 : c_slots h1 !! rc o = Some (CSlot (g (c_value sl)) Exclusive (c_strong sl)))
      by (rewrite Ho; apply c_update_lookup).
    rewrite (with_ref_mut_unfold s g _ h sl Es Fu). fold h1.
    rewrite (with_ref_refused o _ h1 _ E1 eq_refl). simpl.
    unfold h1. apply f_equal, drop_refmut_after.
  - rewrite (u_with_ref_mut_live s g _ (erase h) _ Us). cbn [u_value u_strong erase_slot]. rewrite <- Eh.
    rewrite (u_with_ref_live o _ (erase h') (USlot (g (c_value sl)) (c_strong sl))); [reflexivity|].
    rewrite Eh, Ho. unfold u_update; cbn [u_slots]. apply lookup_insert_eq.
Qed.

Lemma X12_witness :
  with_ref (SCellC 0) (fun _ => with_ref_mut (SCellC 0) S (ret tt)) h5 = (Err AlreadyBorrowed, h5) /\
  u_with_ref (SCellC 0) (fun _ => u_with_ref_mut (SCellC 0) S (ret tt)) (erase h5)
    = (Ok tt, erase (c_update 0 (CSlot 6 Unborrowed 1) h5)).
Proof.
  destruct (X12_unchecked_misses_aliasing h5 (SCellC 0) (SCellC 0) (CSlot 5 Unborrowed 1) S tt
              eq_refl eq_refl eq_refl) as (P1 & P2 & _).
  split; [exact P1 | exact P2].
Defined.

(** X13: Two cells created one after the other are distinct slots, so in
    both variants comparing them compares the two wrapped values, with no
    panic: [==], [partial_cmp], [<] and [cmp] of [SCell::new(x)] and
    [SCell::new(y)] are those of [x] and [y]. *)
Theorem X13_fresh_cells_compare {T} `{PartialEq T} `{PartialOrd T} `{Ord T}
    (x y : T) (h : cheap T) (uh : uheap T) :
  fst ((a <- c_new x ;; b <- c_new y ;; c_eq a b) h) = Ok (eq x y) /\
  fst ((a <- c_new x ;; b <- c_new y ;; c_partial_cmp a b) h) = Ok (partial_cmp x y) /\
  fst ((a <- c_new x ;; b <- c_new y ;; c_lt a b) h) = Ok (lt x y) /\
  fst ((a <- c_new x ;; b <- c_new y ;; c_cmp a b) h) = Ok (cmp x y) /\
  fst ((a <- u_new x ;; b <- u_new y ;; u_eq a b) uh) = Ok (eq x y) /\
  fst ((a <- u_new x ;; b <- u_new y ;; u_partial_cmp a b) uh) = Ok (partial_cmp x y) /\
  fst ((a <- u_new x ;; b <- u_new y ;; u_lt a b) uh) = Ok (lt x y) /\
  fst ((a <- u_new x ;; b <- u_new y ;; u_cmp a b) uh) = Ok (cmp x y).
Proof.
  unfold c_eq, c_partial_cmp, c_lt, c_cmp, u_eq, u_partial_cmp, u_lt, u_cmp.
  rewrite !c_new2_forward2, !u_new2_forward2. repeat split.
Qed.
